(* ===================================================================== *)
(*  flappy_bird.py : game loop, kinematics, obstacle stream, scoring     *)
(*                                                                       *)
(*  A shallow embedding of src/flappy_bird.py.                           *)
(*                                                                       *)
(*  Numbers.  Python ints that stay ints (score, high score, pipe        *)
(*  heights, millisecond ticks) are Z.  Every quantity that takes part   *)
(*  in float arithmetic (velocity, positions, angles, dt) is a rational  *)
(*  Q with exact arithmetic: rounding of binary64 is not modelled.       *)
(*  Equality on those quantities is Qeq (==); a number stored in an      *)
(*  attribute is kept in lowest terms (num).                             *)
(*                                                                       *)
(*  Objects.  Pipe objects are shared between the deque `pipes` and the  *)
(*  snapshot `list(pipes)` the update loop walks over; they live in a    *)
(*  heap (a list indexed by allocation number) and the deque holds       *)
(*  references.  The bird is held by one variable only and is a value.   *)
(*                                                                       *)
(*  Clouds and particles never feed back into bird, pipes, score or the  *)
(*  session flags: they are modelled on their own (Particle, Cloud) and  *)
(*  are not part of the Game record.  Draws of the random module are     *)
(*  arguments.  Not modelled: drawing, surfaces, fonts.                  *)
(* ===================================================================== *)

From Stdlib Require Import ZArith QArith Lqa Lia Bool String Ascii.
From Stdlib Require Import DecimalString.
From Stdlib Require DecimalPos.
From stdpp Require Import base list.

Open Scope Q_scope.

(* --------------------------------------------------------------------- *)
(*  Python built-ins used by the program                                  *)
(* --------------------------------------------------------------------- *)

(** A number as a variable or attribute holds it.  A float has one
    representation per value, so the rational is kept in lowest terms;
    [num q] and [q] are the same number. *)
Definition num (q : Q) : Q := Qred q.
Arguments num : simpl never.

(** [a < b] on numbers, as a boolean. *)
Definition Qltb (a b : Q) : bool := negb (Qle_bool b a).

(** [min(a, b)] of Python: the first argument unless the second is
    strictly smaller. *)
Definition py_min (a b : Q) : Q := if Qltb b a then b else a.

(** [max(a, b)] of Python: the first argument unless the second is
    strictly larger. *)
Definition py_max (a b : Q) : Q := if Qltb a b then b else a.

(** Exceptions the modelled code can meet. *)
Inductive Exc : Type :=
| OSError        (* open / read / write failed *)
| ValueError     (* int() of a malformed literal, randint on an empty range *)
| IndexError.    (* popleft on an empty deque *)

(** Outcome of a Python computation: a value or a raised exception. *)
Inductive Res (A : Type) : Type :=
| Ok (a : A)
| Raise (e : Exc).
Arguments Ok {A} a.
Arguments Raise {A} e.

Definition bind {A B} (m : Res A) (k : A -> Res B) : Res B :=
  match m with
  | Ok a => k a
  | Raise e => Raise e
  end.

Notation "x <- m ;; k" := (bind m (fun x => k))
  (at level 100, m at next level, right associativity).

(** [try: body  except: handler] with a bare [except]. *)
Definition try_except {A} (body : Res A) (handler : Exc -> Res A) : Res A :=
  match body with
  | Ok a => Ok a
  | Raise e => handler e
  end.

(** [random.randint(a, b)]: an integer of [a..b], both ends included,
    chosen by the raw draw [u]; ValueError on an empty range. *)
Definition randint (a b : Z) (u : Z) : Res Z :=
  if (b <? a)%Z then Raise ValueError
  else Ok (a + u mod (b - a + 1))%Z.

(** [str.isspace] on one ASCII character. *)
Definition is_space (c : ascii) : bool :=
  let n := nat_of_ascii c in
  ((9 <=? n) && (n <=? 13) || (28 <=? n) && (n <=? 32))%nat.

Fixpoint lstrip (s : string) : string :=
  match s with
  | String c r => if is_space c then lstrip r else s
  | EmptyString => EmptyString
  end.

Fixpoint rev_string (acc s : string) : string :=
  match s with
  | String c r => rev_string (String c acc) r
  | EmptyString => acc
  end.

(** [s.strip()] *)
Definition strip (s : string) : string :=
  rev_string EmptyString (lstrip (rev_string EmptyString (lstrip s))).

Definition digit_of (c : ascii) : option Z :=
  let n := nat_of_ascii c in
  if ((48 <=? n) && (n <=? 57))%nat then Some (Z.of_nat (n - 48)) else None.

(** Digits of a decimal literal, with single underscores allowed between
    digits.  [prev] tells whether the previous character was a digit. *)
Fixpoint parse_digits (acc : Z) (prev : bool) (s : string) : option Z :=
  match s with
  | EmptyString => if prev then Some acc else None
  | String c r =>
      match digit_of c with
      | Some d => parse_digits (10 * acc + d)%Z true r
      | None =>
          if (Ascii.eqb c "_" && prev)%bool then
            match r with
            | EmptyString => None
            | String c' _ =>
                match digit_of c' with
                | Some _ => parse_digits acc false r
                | None => None
                end
            end
          else None
      end
  end.

(** [int(s)] for a str argument: optional blanks, optional sign, decimal
    digits; ValueError otherwise. *)
Definition int_of_str (s : string) : Res Z :=
  let body :=
    match strip s with
    | String "-" r => option_map Z.opp (parse_digits 0 false r)
    | String "+" r => parse_digits 0 false r
    | r => parse_digits 0 false r
    end in
  match body with
  | Some z => Ok z
  | None => Raise ValueError
  end.

(** [str(v)] for an int. *)
Definition str_of_int (v : Z) : string :=
  NilZero.string_of_int (Z.to_int v).

(* --------------------------------------------------------------------- *)
(*  Config                                                                *)
(* --------------------------------------------------------------------- *)

Definition WIDTH : Z := 480.
Definition HEIGHT : Z := 700.
Definition FPS : Z := 60.

Definition BIRD_X : Z := 100.
Definition GRAVITY : Q := 0.45.
Definition FLAP_POWER : Q := -9.5.
Definition TERMINAL_V : Q := 12.

Definition PIPE_SPEED : Q := 3.3.
Definition PIPE_GAP : Z := 200.
Definition PIPE_INTERVAL : Z := 1700.
Definition PIPE_WIDTH : Z := 88.

Definition GROUND_HEIGHT : Z := 100.

(* --------------------------------------------------------------------- *)
(*  Helpers: high score file, clamp                                       *)
(* --------------------------------------------------------------------- *)

(** What HIGH_FILE is on disk. *)
Inductive FileState : Type :=
| Absent                 (* no such file: open(.., "r") raises *)
| Unreadable             (* present, but open or read raises *)
| Text (s : string).     (* present, f.read() returns s *)

(** What goes wrong at the next attempt to write HIGH_FILE. *)
Inductive Fault : Type :=
| NoFault
| OpenFails              (* open(.., "w") raises, file untouched *)
| WriteFails.            (* file truncated by open, then write raises *)

Definition read_file (fs : FileState) : Res string :=
  match fs with
  | Text s => Ok s
  | Absent | Unreadable => Raise OSError
  end.

Definition load_highscore (fs : FileState) : Res Z :=
  try_except
    (s <- read_file fs ;;
     match strip s with
     | EmptyString => Ok 0%Z              (* int("" or 0) *)
     | s' => int_of_str s'
     end)
    (fun _ => Ok 0%Z).

(** The body of the [try] in save_highscore, on the file system. *)
Definition write_file (ft : Fault) (content : string) (fs : FileState)
  : Res unit * FileState :=
  match ft with
  | OpenFails => (Raise OSError, fs)
  | WriteFails => (Raise OSError, Text EmptyString)
  | NoFault => (Ok tt, Text content)
  end.

Definition save_highscore (v : Z) (ft : Fault) (fs : FileState)
  : Res unit * FileState :=
  let '(r, fs') := write_file ft (str_of_int v) fs in
  (try_except r (fun _ => Ok tt), fs').

Definition clamp (v a b : Q) : Q := py_max a (py_min b v).

(* --------------------------------------------------------------------- *)
(*  Bird                                                                  *)
(* --------------------------------------------------------------------- *)

Module Bird.

Record t : Type := mk {
  x : Q;
  y : Q;
  vel : Q;
  angle : Q;
  wing_phase : Q;
  radius : Q
}.

Definition __init__ : t :=
  {| x := inject_Z BIRD_X;
     y := inject_Z (HEIGHT / 2)%Z;
     vel := 0;
     angle := 0;
     wing_phase := 0;
     radius := 18 |}.

Definition flap (b : t) : t :=
  {| x := x b; y := y b;
     vel := FLAP_POWER;
     angle := angle b;
     wing_phase := -0.6;
     radius := radius b |}.

Definition update (dt : Q) (b : t) : t :=
  let vel1 := num (vel b + GRAVITY) in
  let vel2 := clamp vel1 (-999) TERMINAL_V in
  let y' := num (y b + vel2) in
  let angle' := clamp (num (- vel2 * 3.5)) (-30) 80 in
  {| x := x b; y := y';
     vel := vel2;
     angle := angle';
     wing_phase := num (wing_phase b + dt * 8.0);
     radius := radius b |}.

(** The [else] branch of "update bird" in run_game. *)
Definition bob (dt : Q) (b : t) : t :=
  {| x := x b; y := y b; vel := vel b; angle := angle b;
     wing_phase := num (wing_phase b + dt * 4.0);
     radius := radius b |}.

(** The velocity update as the specification words it: gravity, then an
    upper bound at the terminal velocity and no lower bound. *)
Definition spec_velocity (v : Q) : Q := py_min TERMINAL_V (v + GRAVITY).

(** A program over one bird: the calls the game loop can make. *)
Inductive op : Type :=
| Flap
| Update (dt : Q).

Definition step (o : op) (b : t) : t :=
  match o with
  | Flap => flap b
  | Update dt => update dt b
  end.

(** Run a sequence of calls, first call first. *)
Definition run (ops : list op) (b : t) : t :=
  fold_left (fun b o => step o b) ops b.

(** Velocities read after each of the updates [update(dt)], dt in dts. *)
Fixpoint velocities (dts : list Q) (b : t) : list Q :=
  match dts with
  | [] => []
  | dt :: rest => vel (update dt b) :: velocities rest (update dt b)
  end.

End Bird.

(* --------------------------------------------------------------------- *)
(*  Pipes                                                                 *)
(* --------------------------------------------------------------------- *)

Module Pipe.

Record t : Type := mk {
  x : Q;
  w : Q;
  h_top : Z;
  h_bottom : Z;
  passed : bool
}.

(** [Pipe(x)]; [u] is the raw draw behind random.randint. *)
Definition __init__ (x0 : Q) (u : Z) : Res t :=
  let total_h := (HEIGHT - GROUND_HEIGHT)%Z in
  h <- randint 80 (total_h - PIPE_GAP - 80) u ;;
  Ok {| x := x0;
        w := inject_Z PIPE_WIDTH;
        h_top := h;
        h_bottom := (total_h - h - PIPE_GAP)%Z;
        passed := false |}.

Definition update (dt : Q) (p : t) : t :=
  {| x := num (x p - PIPE_SPEED); w := w p;
     h_top := h_top p; h_bottom := h_bottom p; passed := passed p |}.

(** [p.passed = True] *)
Definition set_passed (p : t) : t :=
  {| x := x p; w := w p;
     h_top := h_top p; h_bottom := h_bottom p; passed := true |}.

End Pipe.

(** Arguments of a [pygame.Rect(left, top, width, height)] call. *)
Record Rect : Type := mkRect {
  left : Q;
  top : Q;
  width : Q;
  height : Q
}.

Definition Bird_get_rect (b : Bird.t) : Rect :=
  mkRect (Bird.x b - Bird.radius b) (Bird.y b - Bird.radius b)
         (Bird.radius b * 2) (Bird.radius b * 2).

Definition Pipe_get_top_rect (p : Pipe.t) : Rect :=
  mkRect (Pipe.x p) 0 (Pipe.w p) (inject_Z (Pipe.h_top p)).

Definition Pipe_get_bottom_rect (p : Pipe.t) : Rect :=
  let bottom_y := (Pipe.h_top p + PIPE_GAP)%Z in
  mkRect (Pipe.x p) (inject_Z bottom_y) (Pipe.w p) (inject_Z (Pipe.h_bottom p)).

(** pygame keeps a Rect as four C ints; a float argument loses its
    fraction (rounding towards zero). *)
Definition Qtrunc (q : Q) : Z := Z.quot (Qnum q) (Zpos (Qden q)).

(** [Rect.colliderect] of pygame: strict overlap of the two integer
    rectangles, false when one of them is empty. *)
Definition pygame_colliderect (a b : Rect) : bool :=
  let ax := Qtrunc (left a) in let ay := Qtrunc (top a) in
  let aw := Qtrunc (width a) in let ah := Qtrunc (height a) in
  let bx := Qtrunc (left b) in let by' := Qtrunc (top b) in
  let bw := Qtrunc (width b) in let bh := Qtrunc (height b) in
  (negb ((aw =? 0) || (ah =? 0) || (bw =? 0) || (bh =? 0)) &&
   (Z.min ax (ax + aw) <? Z.max bx (bx + bw)) &&
   (Z.min ay (ay + ah) <? Z.max by' (by' + bh)) &&
   (Z.min bx (bx + bw) <? Z.max ax (ax + aw)) &&
   (Z.min by' (by' + bh) <? Z.max ay (ay + ah)))%Z.

(* --------------------------------------------------------------------- *)
(*  Main game                                                             *)
(* --------------------------------------------------------------------- *)

Inductive Key : Type := K_ESCAPE | K_SPACE | K_r | K_other.

Inductive Event : Type :=
| QUIT
| KEYDOWN (key : Key)
| OTHER.

(** The local variables of run_game that outlive a frame.  [heap] holds
    every Pipe object allocated so far, [pipes] the deque of references. *)
Record Game : Type := mkGame {
  bird : Bird.t;
  heap : list Pipe.t;
  pipes : list nat;
  last_pipe_time : Z;
  score : Z;
  high : Z;
  running : bool;
  started : bool;
  game_over : bool
}.

(** What one iteration of the [while running] loop reads from outside. *)
Record Input : Type := mkInput {
  dt : Q;                  (* clock.tick(FPS) / 1000.0 *)
  events : list Event;     (* pygame.event.get() *)
  ev_ticks : Z;            (* pygame.time.get_ticks() inside the event loop *)
  now : Z;                 (* pygame.time.get_ticks() after it *)
  draw : Z;                (* raw draw for the randint of a new Pipe *)
  faults : list Fault      (* one per write of the high score, in order *)
}.

Definition set_bird (b : Bird.t) (g : Game) : Game :=
  mkGame b (heap g) (pipes g) (last_pipe_time g) (score g) (high g)
         (running g) (started g) (game_over g).

Definition set_running (r : bool) (g : Game) : Game :=
  mkGame (bird g) (heap g) (pipes g) (last_pipe_time g) (score g) (high g)
         r (started g) (game_over g).

Definition set_started (s : bool) (g : Game) : Game :=
  mkGame (bird g) (heap g) (pipes g) (last_pipe_time g) (score g) (high g)
         (running g) s (game_over g).

Definition set_game_over (o : bool) (g : Game) : Game :=
  mkGame (bird g) (heap g) (pipes g) (last_pipe_time g) (score g) (high g)
         (running g) (started g) o.

(** The restart block, written twice in run_game (SPACE and R):
    pipes.clear(); last_pipe_time = get_ticks(); score = 0; bird = Bird();
    started = True; game_over = False. *)
Definition restart (ticks : Z) (g : Game) : Game :=
  mkGame Bird.__init__ (heap g) [] ticks 0%Z (high g)
         (running g) true false.

(** The body of [if event.type == pygame.KEYDOWN] below the ESCAPE test. *)
Definition on_keydown (ticks : Z) (k : Key) (g : Game) : Game :=
  let g1 :=
    match k with
    | K_SPACE =>
        let g' := if negb (started g)
                  then set_bird Bird.__init__ (set_started true g)
                  else g in
        if negb (game_over g')
        then set_bird (Bird.flap (bird g')) g'
        else restart ticks g'
    | _ => g
    end in
  match k with
  | K_r => if game_over g1 then restart ticks g1 else g1
  | _ => g1
  end.

(** [for event in pygame.event.get()], with its two [break]s. *)
Fixpoint event_loop (ticks : Z) (evs : list Event) (g : Game) : Game :=
  match evs with
  | [] => g
  | QUIT :: _ => set_running false g
  | KEYDOWN K_ESCAPE :: _ => set_running false g
  | KEYDOWN k :: rest => event_loop ticks rest (on_keydown ticks k g)
  | OTHER :: rest => event_loop ticks rest g
  end.

(** "spawn pipes" *)
Definition spawn (inp : Input) (g : Game) : Res Game :=
  if started g && negb (game_over g)
     && (now inp - last_pipe_time g >? PIPE_INTERVAL)%Z
  then
    p <- Pipe.__init__ (inject_Z (WIDTH + 20)) (draw inp) ;;
    Ok (mkGame (bird g) (heap g ++ [p]) (pipes g ++ [length (heap g)])
               (now inp) (score g) (high g)
               (running g) (started g) (game_over g))
  else Ok g.

(** [pipes.popleft()] *)
Definition popleft (dq : list nat) : Res (list nat) :=
  match dq with
  | [] => Raise IndexError
  | _ :: rest => Ok rest
  end.

(** What the "update pipes" loop reads and writes. *)
Record Loop : Type := mkLoop {
  l_heap : list Pipe.t;
  l_pipes : list nat;
  l_score : Z;
  l_high : Z;
  l_disk : FileState;
  l_faults : list Fault;
  l_scored : list nat      (* ghost: the pipes that scored, in order *)
}.

(** One iteration of [for p in list(pipes)] for the reference [p];
    [bx] is bird.x.  A reference always denotes an allocated object; for
    a number outside the heap the iteration does nothing. *)
Definition pipe_iter (dt : Q) (bx : Q) (p : nat) (s : Loop) : Res Loop :=
  let h1 := alter (Pipe.update dt) p (l_heap s) in
  match h1 !! p with
  | None => Ok s
  | Some o =>
      dq <- (if Qltb (Pipe.x o + Pipe.w o) (-60)
             then popleft (l_pipes s) else Ok (l_pipes s)) ;;
      if negb (Pipe.passed o) && Qltb (Pipe.x o + Pipe.w o) bx
      then
        let score' := (l_score s + 1)%Z in
        let high' := Z.max (l_high s) score' in
        let ft := hd NoFault (l_faults s) in
        let '(r, disk') := save_highscore high' ft (l_disk s) in
        _ <- r ;;
        Ok (mkLoop (alter Pipe.set_passed p h1) dq score' high'
                   disk' (tl (l_faults s)) (l_scored s ++ [p]))
      else
        Ok (mkLoop h1 dq (l_score s) (l_high s)
                   (l_disk s) (l_faults s) (l_scored s))
  end.

Fixpoint pipes_loop (dt : Q) (bx : Q) (snapshot : list nat) (s : Loop)
  : Res Loop :=
  match snapshot with
  | [] => Ok s
  | p :: rest => s' <- pipe_iter dt bx p s ;; pipes_loop dt bx rest s'
  end.

Section Frame.

(** [Rect.colliderect] belongs to pygame; the game loop is modelled for
    any behaviour of it. *)
Variable colliderect : Rect -> Rect -> bool.

(** "collision detection", entered with game_over = False: the ground
    test, then the pipes in deque order until the first hit. *)
Definition collision (b : Bird.t) (hp : list Pipe.t) (dq : list nat) : bool :=
  let brect := Bird_get_rect b in
  Qltb (inject_Z (HEIGHT - GROUND_HEIGHT)) (Bird.y b + Bird.radius b)
  || existsb
       (fun p =>
          match hp !! p with
          | Some o => colliderect brect (Pipe_get_top_rect o)
                      || colliderect brect (Pipe_get_bottom_rect o)
          | None => false
          end)
       dq.

(** One iteration of [while running], drawing left out.  Returns the
    game, the disk and the pipes that scored during the frame, in
    order. *)
Definition frame (inp : Input) (g : Game) (disk : FileState)
  : Res (Game * FileState * list nat) :=
  let g1 := event_loop (ev_ticks inp) (events inp) g in
  g2 <- spawn inp g1 ;;
  s <- pipes_loop (dt inp) (Bird.x (bird g2)) (pipes g2)
         (mkLoop (heap g2) (pipes g2) (score g2) (high g2)
                 disk (faults inp) []) ;;
  let live := started g2 && negb (game_over g2) in
  let b := if live then Bird.update (dt inp) (bird g2)
           else Bird.bob (dt inp) (bird g2) in
  let over := if live then collision b (l_heap s) (l_pipes s)
              else game_over g2 in
  Ok (mkGame b (l_heap s) (l_pipes s) (last_pipe_time g2)
             (l_score s) (l_high s) (running g2) (started g2) over,
      l_disk s, l_scored s).

(** The [while running] loop over the frames whose inputs are given. *)
Fixpoint frames (inps : list Input) (g : Game) (disk : FileState)
  : Res (Game * FileState * list nat) :=
  match inps with
  | [] => Ok (g, disk, [])
  | inp :: rest =>
      if running g then
        r <- frame inp g disk ;;
        let '(g', disk', ev) := r in
        r' <- frames rest g' disk' ;;
        let '(g'', disk'', ev') := r' in
        Ok (g'', disk'', ev ++ ev')
      else Ok (g, disk, [])
  end.

(** The state run_game sets up before its loop; [t0] is the first
    pygame.time.get_ticks(). *)
Definition setup (t0 : Z) (disk : FileState) : Res Game :=
  h <- load_highscore disk ;;
  Ok (mkGame Bird.__init__ [] [] (t0 - PIPE_INTERVAL / 2)%Z 0%Z h
             true false false).

Definition run_game (t0 : Z) (inps : list Input) (disk : FileState)
  : Res (Game * FileState * list nat) :=
  g <- setup t0 disk ;;
  frames inps g disk.

End Frame.

(* --------------------------------------------------------------------- *)
(*  Vocabulary of the statements                                          *)
(* --------------------------------------------------------------------- *)

(** The velocity bounds every bird of the game satisfies. *)
Definition vel_in_range (b : Bird.t) : Prop :=
  FLAP_POWER <= Bird.vel b <= TERMINAL_V.

(** The heights a pipe keeps for its whole life. *)
Definition clearance (p : Pipe.t) : Prop :=
  (80 <= Pipe.h_top p /\
   80 <= (HEIGHT - GROUND_HEIGHT) - Pipe.h_top p - PIPE_GAP /\
   80 <= Pipe.h_bottom p /\
   Pipe.h_top p + PIPE_GAP + Pipe.h_bottom p = HEIGHT - GROUND_HEIGHT)%Z.

(** The object [p] denotes is marked passed. *)
Definition passed_in (h : list Pipe.t) (p : nat) : Prop :=
  exists o, h !! p = Some o /\ Pipe.passed o = true.

(** The deque after the retirement test on the moved pipe [o1]. *)
Inductive retired (o1 : Pipe.t) (dq : list nat) : list nat -> Prop :=
| retired_head hd rest :
    Pipe.x o1 + Pipe.w o1 < -60 -> dq = hd :: rest -> retired o1 dq rest
| retired_none :
    -60 <= Pipe.x o1 + Pipe.w o1 -> retired o1 dq dq.

(** The three ways one iteration of the pipe loop can end normally. *)
Inductive iter_outcome (dt bx : Q) (p : nat) (s : Loop) : Loop -> Prop :=
| iter_skip :
    l_heap s !! p = None ->
    iter_outcome dt bx p s s
| iter_move o dq :
    l_heap s !! p = Some o ->
    retired (Pipe.update dt o) (l_pipes s) dq ->
    Pipe.passed o = true \/
      bx <= Pipe.x (Pipe.update dt o) + Pipe.w (Pipe.update dt o) ->
    iter_outcome dt bx p s
      (mkLoop (alter (Pipe.update dt) p (l_heap s)) dq
              (l_score s) (l_high s) (l_disk s) (l_faults s) (l_scored s))
| iter_score o dq :
    l_heap s !! p = Some o ->
    retired (Pipe.update dt o) (l_pipes s) dq ->
    Pipe.passed o = false ->
    Pipe.x (Pipe.update dt o) + Pipe.w (Pipe.update dt o) < bx ->
    iter_outcome dt bx p s
      (mkLoop (alter Pipe.set_passed p (alter (Pipe.update dt) p (l_heap s))) dq
              (l_score s + 1)%Z (Z.max (l_high s) (l_score s + 1))
              (snd (save_highscore (Z.max (l_high s) (l_score s + 1))
                      (hd NoFault (l_faults s)) (l_disk s)))
              (tl (l_faults s)) (l_scored s ++ [p])).

(** What holds of the variables of run_game between two frames: the deque
    holds each pipe once, every reference denotes an allocated pipe, and
    the bird sits at BIRD_X. *)
Definition wf (g : Game) : Prop :=
  NoDup (pipes g) /\
  (forall p, p ∈ pipes g -> (p < length (heap g))%nat) /\
  Bird.x (bird g) = inject_Z BIRD_X.

(** The state in which the update loop of a frame starts: after the event
    loop and the spawn test. *)
Definition before_loop (inp : Input) (g : Game) : Res Game :=
  spawn inp (event_loop (ev_ticks inp) (events inp) g).

(** The test the scoring branch makes on the pipe [p] denotes, read off
    the heap as it is before the pipe moves: not yet passed, and the
    right edge left of [bx] once moved. *)
Definition scores_at (bx : Q) (h : list Pipe.t) (p : nat) : Prop :=
  exists o, h !! p = Some o /\ Pipe.passed o = false /\
            Pipe.x o - PIPE_SPEED + Pipe.w o < bx.

(** The same frame input with other write faults. *)
Definition with_faults (fl : list Fault) (inp : Input) : Input :=
  mkInput (dt inp) (events inp) (ev_ticks inp) (now inp) (draw inp) fl.

(** Two loop states that differ at most in the disk and the faults. *)
Definition same_play (s1 s2 : Loop) : Prop :=
  l_heap s1 = l_heap s2 /\ l_pipes s1 = l_pipes s2 /\
  l_score s1 = l_score s2 /\ l_high s1 = l_high s2 /\
  l_scored s1 = l_scored s2.

(* --------------------------------------------------------------------- *)
(*  Concrete frames and games the statements are tried on                 *)
(* --------------------------------------------------------------------- *)

(** A frame of 16 ms at tick [t] with no event, and one with a key press. *)
Definition quiet (t : Z) : Input := mkInput 0.016 [] t t 0 [].

Definition press (k : Key) (t : Z) : Input :=
  mkInput 0.016 [KEYDOWN k] t t 0 [].

(** [n] quiet frames, 16 ms apart, from tick [t] on. *)
Fixpoint quiets (n : nat) (t : Z) : list Input :=
  match n with
  | O => []
  | S k => quiet t :: quiets k (t + 16)%Z
  end.

(** A bird thrown upwards far faster than any flap makes it go. *)
Definition rocket : Bird.t := Bird.mk 100 350 (-2000) 0 0 18.

(** A game that is over, the bird on the ground, with one pipe whose right
    edge (x + w = 102) is still right of the bird. *)
Definition crashed : Game :=
  mkGame (Bird.mk 100 591.1 12 (-30) 0 18)
         [Pipe.mk 14 88 80 320 false] [0%nat]
         1000 0 0 true true true.

(* --------------------------------------------------------------------- *)
(*  Further vocabulary: events                                            *)
(* --------------------------------------------------------------------- *)

(** The events that end the event loop: window close and ESCAPE. *)
Definition is_quit (e : Event) : bool :=
  match e with
  | QUIT | KEYDOWN K_ESCAPE => true
  | _ => false
  end.

(** A pipe and what the update loop makes of it. *)
Definition moved (o o' : Pipe.t) : Prop :=
  Pipe.x o' == Pipe.x o - PIPE_SPEED /\
  Pipe.w o' = Pipe.w o /\
  Pipe.h_top o' = Pipe.h_top o /\
  Pipe.h_bottom o' = Pipe.h_bottom o /\
  (Pipe.passed o = true -> Pipe.passed o' = true).

(** No character of the string is a blank. *)
Fixpoint no_blank (s : string) : bool :=
  match s with
  | EmptyString => true
  | String c r => negb (is_space c) && no_blank r
  end.

(** The session has not started: the state run_game begins in. *)
Definition idle (g : Game) : Prop :=
  started g = false /\ game_over g = false /\ pipes g = [].

(* --------------------------------------------------------------------- *)
(*  Particles                                                             *)
(* --------------------------------------------------------------------- *)

Definition PARTICLE_LIFETIME : Q := 0.6.

(** [random.uniform(a, b)], that is [a + (b - a) * random()]; [r] is the
    raw draw of [random()], a number of [0, 1). *)
Definition uniform (a b r : Q) : Q := num (a + (b - a) * r).

(** The raw draws one [Particle(x, y)] call consumes, in order. *)
Record Draws : Type := mkDraws {
  d_x : Q;
  d_y : Q;
  d_velx : Q;
  d_vely : Q;
  d_size : Z
}.

Module Particle.

Record t : Type := mk {
x : Q;
y : Q;
velx : Q;
vely : Q;
life : Q;
size : Z;
color : Z * Z * Z
}.

Definition __init__ (x0 y0 : Q) (d : Draws) : Res t :=
let x1 := num (x0 + uniform (-6) 6 (d_x d)) in
let y1 := num (y0 + uniform (-6) 6 (d_y d)) in
let vx := uniform (-1.8) 1.8 (d_velx d) in
let vy := uniform (-3.0) (-0.5) (d_vely d) in
sz <- randint 2 5 (d_size d) ;;
Ok {| x := x1; y := y1; velx := vx; vely := vy;
      life := PARTICLE_LIFETIME; size := sz;
      color := (255, 220, 90)%Z |}.

Definition update (dt : Q) (p : t) : t :=
{| life := num (life p - dt);
   x := num (x p + velx p);
   y := num (y p + vely p);
   vely := num (vely p + GRAVITY * 0.6);
   velx := velx p; size := size p; color := color p |}.

End Particle.

(** "spawn particles at bird": [for _ in range(12)], the [i]-th call
    drawing [draws i]. *)
Fixpoint particles_burst (n : nat) (i : nat) (b : Bird.t)
         (draws : nat -> Draws) (particles : list Particle.t)
  : Res (list Particle.t) :=
  match n with
  | O => Ok particles
  | S n' =>
      p <- Particle.__init__ (Bird.x b - 6) (Bird.y b) (draws i) ;;
      particles_burst n' (S i) b draws (particles ++ [p])
  end.

Definition spawn_particles (b : Bird.t) (draws : nat -> Draws)
           (particles : list Particle.t) : Res (list Particle.t) :=
  particles_burst 12 0 b draws particles.

(** "update particles": [for part in list(particles): part.update(dt);
    if part.life <= 0: particles.remove(part)].  Particles are compared
    by identity, so [remove(part)] takes out the very particle the loop
    is at; the result is the list of the particles kept, in order. *)
Fixpoint particles_loop (dt : Q) (snapshot : list Particle.t)
  : list Particle.t :=
  match snapshot with
  | [] => []
  | part :: rest =>
      let part' := Particle.update dt part in
      if Qle_bool (Particle.life part') 0
      then particles_loop dt rest
      else part' :: particles_loop dt rest
  end.


(* --------------------------------------------------------------------- *)
(*  Parallax clouds                                                       *)
(* --------------------------------------------------------------------- *)

Module Cloud.

Record t : Type := mk {
x : Q;
y : Z;
speed : Q;
scale : Q
}.

(** [Cloud()]; [ux], [uy] are the raw draws of the two randint calls,
  [rs], [rc] those of the two uniform calls. *)
Definition __init__ (ux uy : Z) (rs rc : Q) : Res t :=
x0 <- randint 0 WIDTH ux ;;
y0 <- randint 40 200 uy ;;
Ok {| x := inject_Z x0; y := y0;
      speed := uniform 0.3 1.1 rs;
      scale := uniform 0.8 1.6 rc |}.

(** [update(dt)]; [uy] and [rs] are the draws used when the cloud wraps
  around. *)
Definition update (dt : Q) (uy : Z) (rs : Q) (c : t) : Res t :=
let x1 := num (x c - speed c) in
if Qltb x1 (-120) then
  y1 <- randint 40 200 uy ;;
  Ok {| x := inject_Z (WIDTH + 60); y := y1;
        speed := uniform 0.3 1.1 rs; scale := scale c |}
else
  Ok {| x := x1; y := y c; speed := speed c; scale := scale c |}.

End Cloud.

(** The bounds a cloud keeps. *)
Definition cloud_ok (c : Cloud.t) : Prop :=
  -120 <= Cloud.x c <= inject_Z (WIDTH + 60) /\
  (40 <= Cloud.y c <= 200)%Z /\
  0.3 <= Cloud.speed c <= 1.1.

(** The bounds a fresh particle of the burst at [(x0, y0)] keeps. *)
Definition particle_fresh (x0 y0 : Q) (p : Particle.t) : Prop :=
  x0 - 6 <= Particle.x p <= x0 + 6 /\
  y0 - 6 <= Particle.y p <= y0 + 6 /\
  -1.8 <= Particle.velx p <= 1.8 /\
  -3 <= Particle.vely p <= -0.5 /\
  Particle.life p = PARTICLE_LIFETIME /\
  (2 <= Particle.size p <= 5)%Z.

(* --------------------------------------------------------------------- *)
(*  Vocabulary: where the pipes of the deque are                          *)
(* --------------------------------------------------------------------- *)







(* --------------------------------------------------------------------- *)
(*  More concrete inputs                                                  *)
(* --------------------------------------------------------------------- *)

(** The game as run_game sets it up at tick 0 with no high score file. *)
Definition fresh_game : Game :=
  mkGame Bird.__init__ [] [] (-850) 0 0 true false false.

(** A frame in which the window is closed while SPACE is held down. *)
Definition closing : Input :=
  mkInput 0.016 [OTHER; QUIT; KEYDOWN K_SPACE] 2000 2000 0 [].

(** Draws in the middle of every range. *)
Definition middling (i : nat) : Draws := mkDraws 0.5 0.5 0.5 0.5 1.

(** A particle half way through its life. *)
Definition spark : Particle.t :=
  Particle.mk 94 350 0.5 (-1) 0.3 3 (255, 220, 90)%Z.

(** A cloud about to leave on the left. *)
Definition drifting : Cloud.t := Cloud.mk (-119.5) 100 1 1.

(* ===================================================================== *)
(*  Properties                                                            *)
(* ===================================================================== *)

(* --------------------------------------------------------------------- *)
(*  Comparisons, min, max, clamp                                          *)
(* --------------------------------------------------------------------- *)

Lemma Qltb_true (a b : Q) : Qltb a b = true <-> a < b.
Proof.
  unfold Qltb. rewrite negb_true_iff.
  split; intros H.
  - apply Qnot_le_lt. intros Hle. apply Qle_bool_iff in Hle. congruence.
  - destruct (Qle_bool b a) eqn:E; [|reflexivity].
    apply Qle_bool_iff in E. lra.
Qed.

Lemma Qltb_false (a b : Q) : Qltb a b = false <-> b <= a.
Proof.
  unfold Qltb. rewrite negb_false_iff. apply Qle_bool_iff.
Qed.

Lemma num_eq (q : Q) : num q == q.
Proof. apply Qred_correct. Qed.

(** Bring in [num q == q] for every stored number in sight. *)
Ltac know_num :=
  repeat match goal with
  | |- context [num ?q] =>
      lazymatch goal with
      | H : num q == q |- _ => fail
      | _ => pose proof (num_eq q)
      end
  | H : context [num ?q] |- _ =>
      lazymatch goal with
      | H' : num q == q |- _ => fail
      | _ => pose proof (num_eq q)
      end
  end.

(** Split on every comparison the goal tests, innermost first, keeping
    the order fact. *)
Ltac no_test t :=
  lazymatch t with
  | context [Qltb _ _] => fail
  | _ => idtac
  end.

Ltac case_Qltb :=
  repeat match goal with
  | |- context [Qltb ?a ?b] =>
      no_test a; no_test b;
      let E := fresh "E" in
      destruct (Qltb a b) eqn:E;
      [apply Qltb_true in E | apply Qltb_false in E]
  end.

Lemma py_min_spec (a b : Q) :
  (b < a -> py_min a b = b) /\ (a <= b -> py_min a b = a).
Proof.
  unfold py_min. split; intros H; case_Qltb; auto; lra.
Qed.

Lemma py_max_spec (a b : Q) :
  (a < b -> py_max a b = b) /\ (b <= a -> py_max a b = a).
Proof.
  unfold py_max. split; intros H; case_Qltb; auto; lra.
Qed.

Lemma clamp_cases (v a b : Q) :
  a <= b ->
  (v < a -> clamp v a b == a) /\
  (a <= v <= b -> clamp v a b == v) /\
  (b < v -> clamp v a b == b).
Proof.
  intros Hab. unfold clamp, py_max, py_min.
  repeat apply conj; intros H; case_Qltb; try reflexivity; lra.
Qed.

Lemma clamp_range (v a b : Q) : a <= b -> a <= clamp v a b <= b.
Proof.
  intros Hab. unfold clamp, py_max, py_min. case_Qltb; lra.
Qed.

(* --------------------------------------------------------------------- *)
(*  Bird: flap and update                                                 *)
(* --------------------------------------------------------------------- *)

(** C2. flap() overwrites the velocity with the impulse constant whatever
    the velocity was, and a second flap() changes nothing: the bird after
    two flaps is the bird after one. *)
Theorem flap_overwrites_velocity (b : Bird.t) :
  Bird.vel (Bird.flap b) = FLAP_POWER /\
  Bird.vel (Bird.flap (Bird.flap b)) = Bird.vel (Bird.flap b) /\
  Bird.flap (Bird.flap b) = Bird.flap b.
Proof. repeat split. Qed.

Lemma update_vel (dt : Q) (b : Bird.t) :
  Bird.vel (Bird.update dt b)
  = clamp (num (Bird.vel b + GRAVITY)) (-999) TERMINAL_V.
Proof. reflexivity. Qed.

Lemma update_vel_cases (dt : Q) (b : Bird.t) :
  let v := Bird.vel b + GRAVITY in
  let v' := Bird.vel (Bird.update dt b) in
  (v < -999 -> v' == -999) /\
  (-999 <= v <= TERMINAL_V -> v' == v) /\
  (TERMINAL_V < v -> v' == TERMINAL_V).
Proof.
  cbv zeta. rewrite update_vel.
  unfold clamp, py_max, py_min, TERMINAL_V.
  repeat apply conj; intros H; case_Qltb; know_num; lra.
Qed.

(** Where the sum of velocity and gravity is at least -999, the clamp of
    the code is the clamp with an upper bound only. *)
Lemma update_vel_upper_only (dt : Q) (b : Bird.t) :
  -999 <= Bird.vel b + GRAVITY ->
  Bird.vel (Bird.update dt b) == Bird.spec_velocity (Bird.vel b).
Proof.
  intros Hlo. rewrite update_vel.
  unfold Bird.spec_velocity, clamp, py_max, py_min, TERMINAL_V.
  case_Qltb; know_num; lra.
Qed.

Lemma update_angle (dt : Q) (b : Bird.t) :
  Bird.angle (Bird.update dt b)
  == clamp (- Bird.vel (Bird.update dt b) * 3.5) (-30) 80.
Proof.
  change (Bird.angle (Bird.update dt b))
    with (clamp (num (- Bird.vel (Bird.update dt b) * 3.5)) (-30) 80).
  generalize (Bird.vel (Bird.update dt b)). intros v.
  unfold clamp, py_max, py_min. case_Qltb; know_num; lra.
Qed.

(** C3, as the code has it.  update(dt) adds the gravity constant to the
    velocity and clamps the sum to [-999, TERMINAL_V]: below -999 the
    result is -999, above TERMINAL_V it is TERMINAL_V, in between it is
    the sum; wherever the sum is at least -999 this is the clamp with an
    upper bound only.  The clamped velocity is then added to y, and the
    angle is clamp(-velocity * 3.5, -30, 80) of the clamped velocity. *)
Theorem update_kinematics (b : Bird.t) (dt : Q) :
  let v := Bird.vel b + GRAVITY in
  let b' := Bird.update dt b in
  (v < -999 -> Bird.vel b' == -999) /\
  (-999 <= v <= TERMINAL_V -> Bird.vel b' == v) /\
  (TERMINAL_V < v -> Bird.vel b' == TERMINAL_V) /\
  (-999 <= v -> Bird.vel b' == Bird.spec_velocity (Bird.vel b)) /\
  Bird.y b' == Bird.y b + Bird.vel b' /\
  Bird.angle b' == clamp (- Bird.vel b' * 3.5) (-30) 80 /\
  -30 <= Bird.angle b' <= 80 /\
  Bird.x b' = Bird.x b.
Proof.
  cbv zeta.
  destruct (update_vel_cases dt b) as (H1 & H2 & H3).
  split; [exact H1|]. split; [exact H2|]. split; [exact H3|].
  split; [apply update_vel_upper_only|].
  split; [apply num_eq|]. split; [apply update_angle|].
  split; [|reflexivity].
  apply clamp_range. lra.
Qed.

(** C3, witness: a bird thrown upwards at 2000 per frame comes out of one
    update with velocity -999. *)
Lemma update_kinematics_witness :
  Bird.vel (Bird.update 0 rocket) == -999.
Proof.
  apply (proj1 (update_kinematics rocket 0)).
  vm_compute. reflexivity.
Defined.

(** C3, counterexample to the clamp without a lower bound: from velocity
    -2000 the code yields -999, the upper-bound-only clamp -1999.55. *)
Lemma update_lower_bound_counterexample :
  Bird.vel (Bird.update 0 rocket) == -999 /\
  Bird.spec_velocity (Bird.vel rocket) == -1999.55 /\
  ~ Bird.vel (Bird.update 0 rocket) == Bird.spec_velocity (Bird.vel rocket).
Proof.
  repeat apply conj; vm_compute; congruence.
Qed.

Lemma update_vel_step (dt : Q) (b : Bird.t) :
  let v := Bird.vel b in
  let v' := Bird.vel (Bird.update dt b) in
  -999 <= v' <= TERMINAL_V /\
  (v <= TERMINAL_V -> v <= v') /\
  (v < TERMINAL_V -> v < v') /\
  (TERMINAL_V <= v + GRAVITY -> v' == TERMINAL_V) /\
  (v + GRAVITY <= TERMINAL_V -> v + GRAVITY <= v').
Proof.
  cbv zeta. rewrite update_vel.
  unfold clamp, py_max, py_min, TERMINAL_V, GRAVITY.
  split; [split; case_Qltb; know_num; lra|].
  repeat apply conj; intros H; case_Qltb; know_num; lra.
Qed.

(** Every velocity read after the bird [b] relates to the velocity of [b]
    as a later element of a non-decreasing sequence capped at the
    terminal velocity. *)
Lemma velocities_after (dts : list Q) :
  forall (b : Bird.t) (j : nat) (w : Q),
    Bird.vel b <= TERMINAL_V ->
    Bird.velocities dts b !! j = Some w ->
    Bird.vel b <= w /\
    (Bird.vel b < TERMINAL_V -> Bird.vel b < w) /\
    (Bird.vel b == TERMINAL_V -> w == TERMINAL_V) /\
    w <= TERMINAL_V.
Proof.
  induction dts as [|dt rest IH]; intros b j w Hb Hj; [discriminate|].
  destruct (update_vel_step dt b) as ((Hlo & Hhi) & Hle & Hlt & Htop & _).
  simpl in Hj. destruct j as [|j]; simpl in Hj.
  - injection Hj as <-.
    repeat apply conj; auto.
    intros Heq. apply Htop. unfold GRAVITY. lra.
  - destruct (IH _ _ _ Hhi Hj) as (H1 & H2 & H3 & H4).
    specialize (Hle Hb).
    unfold GRAVITY in Htop.
    repeat apply conj; lra.
Qed.

(** After [j+1] updates the velocity is the terminal velocity or at least
    [-999 + j * GRAVITY]. *)
Lemma velocities_climb (dts : list Q) :
  forall (b : Bird.t) (lo : Q) (j : nat) (w : Q),
    lo <= Bird.vel b + GRAVITY ->
    Bird.velocities dts b !! j = Some w ->
    w == TERMINAL_V \/ lo + inject_Z (Z.of_nat j) * GRAVITY <= w.
Proof.
  induction dts as [|dt rest IH]; intros b lo j w Hlo Hj; [discriminate|].
  destruct (update_vel_step dt b) as ((Hl & Hh) & _ & _ & Htop & Hup).
  simpl in Hj. destruct j as [|j]; simpl in Hj.
  - injection Hj as <-.
    destruct (Qlt_le_dec (Bird.vel b + GRAVITY) TERMINAL_V) as [Hc|Hc].
    + right. change (inject_Z (Z.of_nat 0)) with 0.
      rewrite <- (update_vel dt b). specialize (Hup ltac:(lra)). lra.
    + left. rewrite <- (update_vel dt b). auto.
  - destruct (Qlt_le_dec (Bird.vel b + GRAVITY) TERMINAL_V) as [Hc|Hc].
    + specialize (Hup ltac:(lra)).
      destruct (IH (Bird.update dt b) (lo + GRAVITY) j w ltac:(lra) Hj)
        as [Ht|Hge]; [left; exact Ht | right].
      rewrite Nat2Z.inj_succ, <- Z.add_1_r, inject_Z_plus.
      change (inject_Z 1) with 1. lra.
    + left. specialize (Htop Hc).
      destruct (velocities_after rest _ _ _ Hh Hj) as (_ & _ & H3 & _).
      auto.
Qed.

(** C4. The velocities read after successive updates, with no flap in
    between, form a non-decreasing sequence, whatever the dt values and
    the starting velocity: any later reading is at least any earlier one,
    strictly larger while the earlier one is below the terminal velocity,
    and equal to the terminal velocity once an earlier one is.  No
    reading exceeds the terminal velocity, and from the 2248th update on
    every reading is the terminal velocity.  A starting velocity that is
    itself at most the terminal velocity takes the place of an earlier
    reading in all of this. *)
Theorem velocities_nondecreasing (dts : list Q) (b : Bird.t) :
  let vs := Bird.velocities dts b in
  (forall i j v w, (i < j)%nat -> vs !! i = Some v -> vs !! j = Some w ->
     v <= w /\
     (v < TERMINAL_V -> v < w) /\
     (v == TERMINAL_V -> w == TERMINAL_V)) /\
  (forall j w, vs !! j = Some w -> w <= TERMINAL_V) /\
  (forall j w, (2247 <= j)%nat -> vs !! j = Some w -> w == TERMINAL_V) /\
  (Bird.vel b <= TERMINAL_V ->
   forall j w, vs !! j = Some w ->
     Bird.vel b <= w /\
     (Bird.vel b < TERMINAL_V -> Bird.vel b < w) /\
     (Bird.vel b == TERMINAL_V -> w == TERMINAL_V)).
Proof.
  cbv zeta. repeat apply conj.
  - revert b. induction dts as [|dt rest IH]; intros b i j v w Hij Hi Hj;
      [discriminate|].
    destruct j as [|j]; [lia|].
    destruct (update_vel_step dt b) as ((_ & Hh) & _).
    simpl in Hi, Hj. destruct i as [|i]; simpl in Hi, Hj.
    + injection Hi as <-.
      destruct (velocities_after rest _ _ _ Hh Hj) as (H1 & H2 & H3 & _).
      auto.
    + apply (IH (Bird.update dt b) i j); [lia | assumption..].
  - revert b. induction dts as [|dt rest IH]; intros b j w Hj; [discriminate|].
    destruct (update_vel_step dt b) as ((_ & Hh) & _).
    simpl in Hj. destruct j as [|j]; simpl in Hj.
    + injection Hj as <-. exact Hh.
    + eapply IH, Hj.
  - intros j w Hj Hw.
    destruct dts as [|dt rest]; [discriminate|].
    destruct j as [|j]; [lia|].
    destruct (update_vel_step dt b) as ((Hl & Hh) & _).
    simpl in Hw.
    destruct (velocities_climb rest (Bird.update dt b) (-999 + GRAVITY) j w
                ltac:(lra) Hw) as [Ht|Hge]; [exact Ht|].
    destruct (velocities_after rest _ _ _ Hh Hw) as (_ & _ & _ & Hle).
    assert (Hj' : (2246 <= Z.of_nat j)%Z) by lia.
    assert (Hq : 2246 <= inject_Z (Z.of_nat j)).
    { change 2246 with (inject_Z 2246). rewrite <- Zle_Qle. exact Hj'. }
    unfold GRAVITY, TERMINAL_V in *. lra.
  - intros Hb j w Hj.
    destruct (velocities_after dts b j w Hb Hj) as (H1 & H2 & H3 & _).
    auto.
Qed.

(** C4, witness: three updates of a fresh bird; the first reading, 0.45,
    is strictly below the third, 1.35. *)
Lemma velocities_nondecreasing_witness :
  let vs := Bird.velocities [0.016; 0.016; 0.016] Bird.__init__ in
  vs !! 0%nat = Some (9 # 20) /\ vs !! 2%nat = Some (27 # 20) /\
  (9 # 20) <= (27 # 20) /\ (9 # 20) < (27 # 20).
Proof.
  cbv zeta.
  assert (H0 : Bird.velocities [0.016; 0.016; 0.016] Bird.__init__ !! 0%nat
               = Some (9 # 20)) by reflexivity.
  assert (H2 : Bird.velocities [0.016; 0.016; 0.016] Bird.__init__ !! 2%nat
               = Some (27 # 20)) by reflexivity.
  destruct (proj1 (velocities_nondecreasing [0.016; 0.016; 0.016] Bird.__init__)
              0%nat 2%nat _ _ ltac:(lia) H0 H2) as (Hle & Hlt & _).
  repeat apply conj; [exact H0 | exact H2 | exact Hle |].
  apply Hlt. reflexivity.
Defined.

Lemma vel_in_range_init : vel_in_range Bird.__init__.
Proof. unfold vel_in_range. simpl. unfold FLAP_POWER, TERMINAL_V. lra. Qed.

Lemma vel_in_range_flap (b : Bird.t) : vel_in_range (Bird.flap b).
Proof. unfold vel_in_range. simpl. unfold FLAP_POWER, TERMINAL_V. lra. Qed.

Lemma vel_in_range_update (dt : Q) (b : Bird.t) :
  vel_in_range b -> vel_in_range (Bird.update dt b).
Proof.
  unfold vel_in_range. intros [Hlo Hhi].
  destruct (update_vel_step dt b) as ((_ & Hh) & Hle & _).
  specialize (Hle Hhi). split; lra.
Qed.

Lemma vel_in_range_run (ops : list Bird.op) :
  forall b, vel_in_range b -> vel_in_range (Bird.run ops b).
Proof.
  unfold Bird.run.
  induction ops as [|o ops IH]; intros b Hb; [exact Hb|].
  simpl. apply IH. destruct o; simpl.
  - apply vel_in_range_flap.
  - apply vel_in_range_update, Hb.
Qed.

(** C10. Take any sequence of flap() and update(dt) calls on a fresh
    bird, and one more update after it.  The velocity right after that
    update lies between the flap impulse and the terminal velocity, that
    is in [-9.5, 12].  Before the update the velocity plus gravity is
    above -999, so the lower bound of the clamp is not the one that
    binds: the update yields what the clamp with an upper bound only
    yields. *)
Theorem reachable_velocity_bounds (ops : list Bird.op) (dt : Q) :
  let b := Bird.run ops Bird.__init__ in
  let b' := Bird.update dt b in
  FLAP_POWER <= Bird.vel b' <= TERMINAL_V /\
  -9.5 <= Bird.vel b' <= 12 /\
  -999 < Bird.vel b + GRAVITY /\
  Bird.vel b' == Bird.spec_velocity (Bird.vel b) /\
  Bird.vel b' == Bird.vel (Bird.run (ops ++ [Bird.Update dt]) Bird.__init__).
Proof.
  cbv zeta.
  pose proof (vel_in_range_run ops _ vel_in_range_init) as Hb.
  pose proof (vel_in_range_update dt _ Hb) as Hb'.
  unfold vel_in_range, FLAP_POWER, TERMINAL_V in Hb, Hb'.
  assert (Hlo : -999 < Bird.vel (Bird.run ops Bird.__init__) + GRAVITY)
    by (unfold GRAVITY; lra).
  repeat apply conj; try (unfold FLAP_POWER, TERMINAL_V; lra).
  - apply update_vel_upper_only. lra.
  - unfold Bird.run. rewrite fold_left_app. reflexivity.
Qed.

(* --------------------------------------------------------------------- *)
(*  Pipes: the gap                                                        *)
(* --------------------------------------------------------------------- *)

Lemma randint_range (a b u : Z) :
  (a <= b)%Z -> exists r, randint a b u = Ok r /\ (a <= r <= b)%Z.
Proof.
  intros Hab. unfold randint.
  destruct (Z.ltb_spec b a) as [Hlt|_]; [lia|].
  eexists. split; [reflexivity|].
  pose proof (Z.mod_pos_bound u (b - a + 1) ltac:(lia)). lia.
Qed.

Lemma pipe_init_returns (x0 : Q) (u : Z) :
  exists p, Pipe.__init__ x0 u = Ok p /\ clearance p /\
            (Pipe.h_top p <= (HEIGHT - GROUND_HEIGHT) - PIPE_GAP - 80)%Z /\
            Pipe.passed p = false /\ Pipe.x p = x0.
Proof.
  unfold Pipe.__init__, clearance.
  destruct (randint_range 80 (HEIGHT - GROUND_HEIGHT - PIPE_GAP - 80) u)
    as (r & Hr & Hlo & Hhi); [unfold HEIGHT, GROUND_HEIGHT, PIPE_GAP; lia|].
  rewrite Hr. cbn [bind]. eexists. split; [reflexivity|]. simpl.
  unfold HEIGHT, GROUND_HEIGHT, PIPE_GAP in *.
  repeat apply conj; try reflexivity; lia.
Qed.

(** C5. Creating a pipe never fails, whatever the random draw, and the
    pipe it yields has a top segment of height at least 80, room of at
    least 80 below the gap (playfield height 600 minus top height minus
    the gap of 200), a bottom segment of exactly that height, and heights
    that add up, with the gap, to the playfield height. *)
Theorem pipe_gap_clearance (x0 : Q) (u : Z) :
  exists p, Pipe.__init__ x0 u = Ok p /\
    (Pipe.h_top p >= 80)%Z /\
    ((HEIGHT - GROUND_HEIGHT) - Pipe.h_top p - PIPE_GAP >= 80)%Z /\
    (Pipe.h_bottom p = (HEIGHT - GROUND_HEIGHT) - Pipe.h_top p - PIPE_GAP)%Z /\
    (Pipe.h_top p + PIPE_GAP + Pipe.h_bottom p = HEIGHT - GROUND_HEIGHT)%Z /\
    (80 <= Pipe.h_top p <= (HEIGHT - GROUND_HEIGHT) - PIPE_GAP - 80)%Z /\
    (HEIGHT - GROUND_HEIGHT = 600)%Z.
Proof.
  destruct (pipe_init_returns x0 u) as (p & Hp & (H1 & H2 & H3 & H4) & H5 & _).
  exists p. split; [exact Hp|].
  unfold HEIGHT, GROUND_HEIGHT, PIPE_GAP in *. lia.
Qed.

(* --------------------------------------------------------------------- *)
(*  High score file                                                       *)
(* --------------------------------------------------------------------- *)

Lemma load_highscore_total (fs : FileState) : exists v, load_highscore fs = Ok v.
Proof.
  unfold load_highscore, try_except.
  destruct (_ <- read_file fs ;; _); eauto.
Qed.

Lemma save_highscore_returns (v : Z) (ft : Fault) (fs : FileState) :
  fst (save_highscore v ft fs) = Ok tt.
Proof.
  unfold save_highscore, write_file. destruct ft; reflexivity.
Qed.

(* --------------------------------------------------------------------- *)
(*  The pipe loop                                                         *)
(* --------------------------------------------------------------------- *)

Lemma pipe_iter_outcome (dt bx : Q) (p : nat) (s s' : Loop) :
  pipe_iter dt bx p s = Ok s' -> iter_outcome dt bx p s s'.
Proof.
  unfold pipe_iter. rewrite list_lookup_alter_eq.
  destruct (l_heap s !! p) as [o|] eqn:Ho; cbn [fmap option_fmap option_map].
  2:{ intros [= <-]. apply iter_skip, Ho. }
  set (o1 := Pipe.update dt o).
  assert (Hret : forall dq,
    (if Qltb (Pipe.x o1 + Pipe.w o1) (-60) then popleft (l_pipes s)
     else Ok (l_pipes s)) = Ok dq -> retired o1 (l_pipes s) dq).
  { intros dq. case_Qltb.
    - destruct (l_pipes s) as [|hd rest] eqn:Hdq; [discriminate|].
      intros [= <-]. eapply retired_head; [exact E | reflexivity].
    - intros [= <-]. apply retired_none, E. }
  destruct (if Qltb _ (-60) then _ else _) as [dq|e]; [|discriminate].
  cbn [bind]. specialize (Hret dq eq_refl).
  assert (Hp1 : Pipe.passed o1 = Pipe.passed o) by reflexivity.
  rewrite Hp1.
  destruct (Pipe.passed o) eqn:Hp; cbn [negb andb].
  - intros [= <-]. eapply iter_move; eauto.
  - destruct (Qltb (Pipe.x o1 + Pipe.w o1) bx) eqn:Hx.
    + apply Qltb_true in Hx.
      pose proof (save_highscore_returns (Z.max (l_high s) (l_score s + 1))
                    (hd NoFault (l_faults s)) (l_disk s)) as Hsave.
      destruct (save_highscore _ _ _) as [r d] eqn:Hs.
      cbn [fst] in Hsave. subst r. cbn [bind].
      intros [= <-].
      replace d with (snd (save_highscore (Z.max (l_high s) (l_score s + 1))
                             (hd NoFault (l_faults s)) (l_disk s)))
        by (rewrite Hs; reflexivity).
      eapply iter_score; eauto.
    + apply Qltb_false in Hx. intros [= <-]. eapply iter_move; eauto.
Qed.

(** An iteration goes through whenever the deque is not empty. *)
Lemma pipe_iter_returns (dt bx : Q) (p : nat) (s : Loop) :
  l_pipes s <> [] ->
  exists s', pipe_iter dt bx p s = Ok s' /\
             (length (l_pipes s) <= S (length (l_pipes s')))%nat.
Proof.
  intros Hne. unfold pipe_iter.
  destruct (alter _ p (l_heap s) !! p) as [o|]; [|eauto].
  assert (Hdq : exists dq,
    (if Qltb (Pipe.x o + Pipe.w o) (-60) then popleft (l_pipes s)
     else Ok (l_pipes s)) = Ok dq /\ (length (l_pipes s) <= S (length dq))%nat).
  { destruct (Qltb _ _).
    - destruct (l_pipes s) as [|hd rest]; [congruence|].
      exists rest. simpl. split; [reflexivity | lia].
    - exists (l_pipes s). split; [reflexivity | lia]. }
  destruct Hdq as (dq & -> & Hlen). simpl.
  destruct (negb (Pipe.passed o) && Qltb _ bx).
  - pose proof (save_highscore_returns (Z.max (l_high s) (l_score s + 1))
                  (hd NoFault (l_faults s)) (l_disk s)) as Hsave.
    destruct (save_highscore _ _ _) as [r d]. simpl in Hsave. subst r.
    simpl. eauto.
  - eauto.
Qed.

(** The loop over a snapshot no longer than the deque never raises. *)
Lemma pipes_loop_returns (dt bx : Q) (snapshot : list nat) :
  forall s, (length snapshot <= length (l_pipes s))%nat ->
            exists s', pipes_loop dt bx snapshot s = Ok s'.
Proof.
  induction snapshot as [|p rest IH]; intros s Hlen; simpl; [eauto|].
  simpl in Hlen.
  destruct (pipe_iter_returns dt bx p s) as (s1 & -> & H1).
  { destruct (l_pipes s); [simpl in Hlen; lia | discriminate]. }
  simpl. apply IH. lia.
Qed.

(** A property of pairs (state at loop entry, current state) that every
    iteration carries forward holds of the whole loop. *)
Lemma pipes_loop_rule (dt bx : Q) (R : Loop -> Loop -> Prop) :
  (forall s, R s s) ->
  (forall s0 s p s', R s0 s -> iter_outcome dt bx p s s' -> R s0 s') ->
  forall snapshot s s', pipes_loop dt bx snapshot s = Ok s' -> R s s'.
Proof.
  intros Hrefl Hstep snapshot s.
  assert (Hgen : forall s0 s', R s0 s -> pipes_loop dt bx snapshot s = Ok s' -> R s0 s').
  { revert s. induction snapshot as [|p rest IH]; intros s s0 s' H0 Hrun.
    - injection Hrun as <-. exact H0.
    - simpl in Hrun. destruct (pipe_iter dt bx p s) as [s1|] eqn:H1; [|discriminate].
      simpl in Hrun. eapply IH; [|exact Hrun].
      eapply Hstep; [exact H0|]. apply pipe_iter_outcome, H1. }
  intros s'. apply Hgen, Hrefl.
Qed.

Lemma passed_in_alter_update (dt : Q) (h : list Pipe.t) (p q : nat) :
  passed_in h q <-> passed_in (alter (Pipe.update dt) p h) q.
Proof.
  unfold passed_in. rewrite list_lookup_alter.
  destruct (decide (p = q)) as [->|Hne]; [|reflexivity].
  destruct (h !! q) as [o|]; simpl; split; intros (o' & [= <-] & Hp); eauto.
Qed.

Lemma passed_in_alter_set (h : list Pipe.t) (p q : nat) :
  passed_in h q -> passed_in (alter Pipe.set_passed p h) q.
Proof.
  unfold passed_in. rewrite list_lookup_alter.
  destruct (decide (p = q)) as [->|Hne]; [|auto].
  intros (o & -> & Hp). simpl. eauto.
Qed.

Lemma iter_passed_mono (dt bx : Q) (p : nat) (s s' : Loop) (q : nat) :
  iter_outcome dt bx p s s' ->
  passed_in (l_heap s) q -> passed_in (l_heap s') q.
Proof.
  intros [| |] Hq; simpl; auto.
  - apply passed_in_alter_update, Hq.
  - apply passed_in_alter_set, passed_in_alter_update, Hq.
Qed.

Lemma iter_high_mono (dt bx : Q) (p : nat) (s s' : Loop) :
  iter_outcome dt bx p s s' -> (l_high s <= l_high s')%Z.
Proof. intros [| |]; simpl; lia. Qed.

Lemma iter_heap_length (dt bx : Q) (p : nat) (s s' : Loop) :
  iter_outcome dt bx p s s' -> length (l_heap s') = length (l_heap s).
Proof. intros [| |]; simpl; rewrite ?length_alter; reflexivity. Qed.

Lemma retired_suffix (o1 : Pipe.t) (dq dq' : list nat) :
  retired o1 dq dq' -> dq' `suffix_of` dq.
Proof.
  intros [hd rest _ ->|_]; [|reflexivity].
  apply suffix_cons_r. reflexivity.
Qed.

Lemma iter_pipes_suffix (dt bx : Q) (p : nat) (s s' : Loop) :
  iter_outcome dt bx p s s' -> l_pipes s' `suffix_of` l_pipes s.
Proof.
  intros [| |]; simpl; [reflexivity | eapply retired_suffix; eauto..].
Qed.

Lemma pipes_loop_high_mono dt bx snapshot s s' :
  pipes_loop dt bx snapshot s = Ok s' -> (l_high s <= l_high s')%Z.
Proof.
  apply (pipes_loop_rule dt bx (fun s s' => (l_high s <= l_high s')%Z)).
  - intros; lia.
  - intros s0 s1 p s2 H01 H12. apply iter_high_mono in H12. lia.
Qed.

Lemma pipes_loop_passed_mono dt bx snapshot s s' q :
  pipes_loop dt bx snapshot s = Ok s' ->
  passed_in (l_heap s) q -> passed_in (l_heap s') q.
Proof.
  apply (pipes_loop_rule dt bx
           (fun s s' => passed_in (l_heap s) q -> passed_in (l_heap s') q)).
  - auto.
  - intros s0 s1 p s2 H01 H12 H0. eapply iter_passed_mono; eauto.
Qed.

Lemma pipes_loop_heap_length dt bx snapshot s s' :
  pipes_loop dt bx snapshot s = Ok s' -> length (l_heap s') = length (l_heap s).
Proof.
  apply (pipes_loop_rule dt bx
           (fun s s' => length (l_heap s') = length (l_heap s))).
  - reflexivity.
  - intros s0 s1 p s2 H01 H12. apply iter_heap_length in H12. congruence.
Qed.

Lemma pipes_loop_pipes_suffix dt bx snapshot s s' :
  pipes_loop dt bx snapshot s = Ok s' -> l_pipes s' `suffix_of` l_pipes s.
Proof.
  apply (pipes_loop_rule dt bx (fun s s' => l_pipes s' `suffix_of` l_pipes s)).
  - reflexivity.
  - intros s0 s1 p s2 H01 H12. apply iter_pipes_suffix in H12.
    etransitivity; eauto.
Qed.

Lemma iter_heap_other (dt bx : Q) (p : nat) (s s' : Loop) (q : nat) :
  iter_outcome dt bx p s s' -> p <> q -> l_heap s' !! q = l_heap s !! q.
Proof.
  intros [| |] Hne; simpl; rewrite ?list_lookup_alter_ne by exact Hne;
    reflexivity.
Qed.

(** What one iteration adds to the trace of scoring pipes. *)
Lemma iter_events (dt bx : Q) (p : nat) (s s' : Loop) :
  iter_outcome dt bx p s s' ->
  exists new,
    l_scored s' = l_scored s ++ new /\
    l_score s' = (l_score s + Z.of_nat (length new))%Z /\
    (new = [] \/ new = [p]) /\
    (new = [p] <-> scores_at bx (l_heap s) p) /\
    (new = [p] -> passed_in (l_heap s') p).
Proof.
  intros [Hnone | o dq Ho _ Hno | o dq Ho _ Hp Hx].
  - exists []. rewrite app_nil_r. simpl.
    repeat apply conj; auto; try lia; try discriminate.
    intros (o & Ho & _). congruence.
  - exists []. rewrite app_nil_r. simpl.
    repeat apply conj; auto; try lia; try discriminate.
    intros (o' & Ho' & Hp & Hx).
    assert (o' = o) by congruence. subst o'.
    destruct Hno as [Hpt|Hge]; [congruence|]. simpl in Hge. know_num. lra.
  - exists [p]. simpl.
    repeat apply conj; auto; try lia.
    + intros _. exists o. simpl in Hx. know_num.
      repeat apply conj; auto. lra.
    + intros _. exists (Pipe.set_passed (Pipe.update dt o)).
      rewrite !list_lookup_alter_eq, Ho. auto.
Qed.

(** The trace the loop adds: no pipe twice, none that was already marked
    passed, all of them marked passed afterwards; the score grows by its
    length. *)
Lemma pipes_loop_events (dt bx : Q) (snapshot : list nat) (s s' : Loop) :
  pipes_loop dt bx snapshot s = Ok s' ->
  exists new,
    l_scored s' = l_scored s ++ new /\
    l_score s' = (l_score s + Z.of_nat (length new))%Z /\
    NoDup new /\
    (forall q, q ∈ new -> ~ passed_in (l_heap s) q) /\
    (forall q, q ∈ new -> passed_in (l_heap s') q) /\
    (forall q, passed_in (l_heap s) q -> passed_in (l_heap s') q).
Proof.
  apply (pipes_loop_rule dt bx (fun s s' =>
    exists new,
      l_scored s' = l_scored s ++ new /\
      l_score s' = (l_score s + Z.of_nat (length new))%Z /\
      NoDup new /\
      (forall q, q ∈ new -> ~ passed_in (l_heap s) q) /\
      (forall q, q ∈ new -> passed_in (l_heap s') q) /\
      (forall q, passed_in (l_heap s) q -> passed_in (l_heap s') q))).
  - intros s0. exists []. rewrite app_nil_r. simpl.
    repeat apply conj; auto; try lia.
    + apply NoDup_nil_2.
    + intros q Hq. apply elem_of_nil in Hq. contradiction.
    + intros q Hq. apply elem_of_nil in Hq. contradiction.
  - intros s0 s1 p s2 (new & Hsc & Hn & Hnd & Hfresh & Hset & Hmono) Hit.
    destruct (iter_events _ _ _ _ _ Hit) as (add & Hsc' & Hn' & Hadd & Hiff & Hpass).
    exists (new ++ add).
    rewrite Hsc', Hsc, Hn', Hn, length_app, Nat2Z.inj_add, app_assoc.
    repeat apply conj; auto; try lia.
    + apply NoDup_app. repeat apply conj; [exact Hnd | | ].
      * intros q Hq Hq'. destruct Hadd as [->| ->].
        -- apply elem_of_nil in Hq'. contradiction.
        -- apply list_elem_of_singleton in Hq'. subst q.
           destruct (proj1 Hiff eq_refl) as (o & Ho & Hp & _).
           destruct (Hset p Hq) as (o' & Ho' & Hp'). congruence.
      * destruct Hadd as [->| ->]; [apply NoDup_nil_2 | apply NoDup_singleton].
    + intros q Hq. apply elem_of_app in Hq as [Hq|Hq]; [auto|].
      destruct Hadd as [->| ->]; [apply elem_of_nil in Hq; contradiction|].
      apply list_elem_of_singleton in Hq. subst q.
      intros H0. apply Hmono in H0.
      destruct (proj1 Hiff eq_refl) as (o & Ho & Hp & _).
      destruct H0 as (o' & Ho' & Hp'). congruence.
    + intros q Hq. apply elem_of_app in Hq as [Hq|Hq].
      * eapply iter_passed_mono; eauto.
      * destruct Hadd as [->| ->]; [apply elem_of_nil in Hq; contradiction|].
        apply list_elem_of_singleton in Hq. subst q. auto.
    + intros q Hq. eapply iter_passed_mono; eauto.
Qed.

Lemma scores_at_ext (bx : Q) (h h' : list Pipe.t) (q : nat) :
  h' !! q = h !! q -> scores_at bx h' q <-> scores_at bx h q.
Proof. unfold scores_at. intros ->. reflexivity. Qed.

(** Over a snapshot without repetition, the pipes that score are exactly
    those of the snapshot that pass the scoring test on the heap the loop
    starts from; pipes outside the snapshot are not touched. *)
Lemma pipes_loop_scoring (dt bx : Q) (snapshot : list nat) :
  forall s s',
    NoDup snapshot ->
    pipes_loop dt bx snapshot s = Ok s' ->
    (forall q, q ∉ snapshot -> l_heap s' !! q = l_heap s !! q) /\
    exists new,
      l_scored s' = l_scored s ++ new /\
      forall q, q ∈ new <-> q ∈ snapshot /\ scores_at bx (l_heap s) q.
Proof.
  induction snapshot as [|p rest IH]; intros s s' Hnd Hrun.
  - injection Hrun as <-. split; [reflexivity|].
    exists []. rewrite app_nil_r. split; [reflexivity|].
    intros q. split.
    + intros Hq. apply elem_of_nil in Hq. contradiction.
    + intros [Hq _]. exact Hq.
  - simpl in Hrun.
    destruct (pipe_iter dt bx p s) as [s1|] eqn:H1; [|discriminate].
    cbn [bind] in Hrun. apply pipe_iter_outcome in H1.
    apply NoDup_cons in Hnd as [Hp Hnd].
    destruct (IH s1 s' Hnd Hrun) as (Hout & new1 & Hsc1 & Hiff1).
    destruct (iter_events _ _ _ _ _ H1) as (add & Hsc & _ & Hadd & Hiff & _).
    split.
    + intros q Hq. apply not_elem_of_cons in Hq as [Hne Hq].
      rewrite (Hout q Hq). eapply iter_heap_other; eauto.
    + exists (add ++ new1). rewrite Hsc1, Hsc, app_assoc.
      split; [reflexivity|].
      intros q. rewrite elem_of_app, Hiff1, elem_of_cons.
      split.
      * intros [Hq|[Hq Hs]].
        -- destruct Hadd as [->| ->]; [apply elem_of_nil in Hq; contradiction|].
           apply list_elem_of_singleton in Hq. subst q.
           split; [left; reflexivity | apply Hiff; reflexivity].
        -- split; [right; exact Hq|].
           eapply scores_at_ext; [|exact Hs].
           symmetry. eapply iter_heap_other; eauto.
           intros ->. contradiction.
      * intros [[->|Hq] Hs].
        -- left. rewrite (proj2 Hiff Hs). apply list_elem_of_singleton. reflexivity.
        -- right. split; [exact Hq|].
           eapply scores_at_ext; [|exact Hs].
           eapply iter_heap_other; eauto.
           intros ->. contradiction.
Qed.

(** Disk and faults do not steer the loop. *)
Lemma pipe_iter_same_play (dt bx : Q) (p : nat) (s1 s2 : Loop) :
  same_play s1 s2 ->
  match pipe_iter dt bx p s1, pipe_iter dt bx p s2 with
  | Ok s1', Ok s2' => same_play s1' s2'
  | Raise e1, Raise e2 => e1 = e2
  | _, _ => False
  end.
Proof.
  intros (Hh & Hp & Hs & Hi & Ht). unfold pipe_iter.
  rewrite <- Hh, <- Hp, <- Hs, <- Hi, <- Ht.
  destruct (alter _ p (l_heap s1) !! p) as [o|].
  2:{ unfold same_play. auto. }
  destruct (if Qltb _ (-60) then _ else _) as [dq|e]; cbn [bind]; [|reflexivity].
  destruct (negb (Pipe.passed o) && Qltb _ bx).
  - pose proof (save_highscore_returns (Z.max (l_high s1) (l_score s1 + 1))
                  (hd NoFault (l_faults s1)) (l_disk s1)) as Hsave1.
    pose proof (save_highscore_returns (Z.max (l_high s1) (l_score s1 + 1))
                  (hd NoFault (l_faults s2)) (l_disk s2)) as Hsave2.
    destruct (save_highscore _ (hd NoFault (l_faults s1)) _) as [r1 d1].
    destruct (save_highscore _ (hd NoFault (l_faults s2)) _) as [r2 d2].
    cbn [fst] in Hsave1, Hsave2. subst r1 r2. cbn [bind].
    unfold same_play. simpl. auto.
  - unfold same_play. simpl. auto.
Qed.

Lemma pipes_loop_same_play (dt bx : Q) (snapshot : list nat) :
  forall s1 s2,
    same_play s1 s2 ->
    match pipes_loop dt bx snapshot s1, pipes_loop dt bx snapshot s2 with
    | Ok s1', Ok s2' => same_play s1' s2'
    | Raise e1, Raise e2 => e1 = e2
    | _, _ => False
    end.
Proof.
  induction snapshot as [|p rest IH]; intros s1 s2 Hsame; simpl; [exact Hsame|].
  pose proof (pipe_iter_same_play dt bx p s1 s2 Hsame) as Hit.
  destruct (pipe_iter dt bx p s1) as [s1'|e1], (pipe_iter dt bx p s2) as [s2'|e2];
    cbn [bind]; try contradiction; [|exact Hit].
  apply IH, Hit.
Qed.

(* --------------------------------------------------------------------- *)
(*  Event loop and spawn                                                  *)
(* --------------------------------------------------------------------- *)

(** A property kept by each of the assignments a key press can make is
    kept by the handling of the key. *)
Lemma on_keydown_rule (P : Game -> Prop) (ticks : Z) :
  (forall g, P g -> P (set_bird Bird.__init__ g)) ->
  (forall g, P g -> P (set_bird (Bird.flap (bird g)) g)) ->
  (forall g, P g -> P (set_started true g)) ->
  (forall g, P g -> P (restart ticks g)) ->
  forall k g, P g -> P (on_keydown ticks k g).
Proof.
  intros Hinit Hflap Hstart Hrestart k g Hg. unfold on_keydown.
  destruct k; try exact Hg.
  - destruct (negb (started g)).
    + destruct (negb (game_over _)); auto.
    + destruct (negb (game_over g)); auto.
  - destruct (game_over g); auto.
Qed.

Lemma event_loop_rule (P : Game -> Prop) (ticks : Z) :
  (forall g, P g -> P (set_bird Bird.__init__ g)) ->
  (forall g, P g -> P (set_bird (Bird.flap (bird g)) g)) ->
  (forall g, P g -> P (set_started true g)) ->
  (forall g, P g -> P (restart ticks g)) ->
  (forall g, P g -> P (set_running false g)) ->
  forall evs g, P g -> P (event_loop ticks evs g).
Proof.
  intros Hinit Hflap Hstart Hrestart Hquit evs.
  induction evs as [|e rest IH]; intros g Hg; simpl; [exact Hg|].
  destruct e as [|k|]; auto.
  destruct k; auto; apply IH, on_keydown_rule; auto.
Qed.

Lemma event_loop_high (ticks : Z) (evs : list Event) (g : Game) :
  high (event_loop ticks evs g) = high g.
Proof.
  apply (event_loop_rule (fun g' => high g' = high g)); auto.
Qed.

Lemma event_loop_heap (ticks : Z) (evs : list Event) (g : Game) :
  heap (event_loop ticks evs g) = heap g.
Proof.
  apply (event_loop_rule (fun g' => heap g' = heap g)); auto.
Qed.

Lemma wf_event_loop (ticks : Z) (evs : list Event) (g : Game) :
  wf g -> wf (event_loop ticks evs g).
Proof.
  apply (event_loop_rule wf); unfold wf; simpl; intros g' (Hnd & Hin & Hx);
    repeat apply conj; auto.
  - apply NoDup_nil_2.
  - intros p Hp. apply elem_of_nil in Hp. contradiction.
Qed.

(** The two ways the spawn test can end. *)
Lemma spawn_cases (inp : Input) (g : Game) :
  spawn inp g = Ok g \/
  exists p, clearance p /\ Pipe.passed p = false /\
    spawn inp g =
      Ok (mkGame (bird g) (heap g ++ [p]) (pipes g ++ [length (heap g)])
                 (now inp) (score g) (high g)
                 (running g) (started g) (game_over g)).
Proof.
  unfold spawn.
  destruct (started g && negb (game_over g) && _); [right | left; reflexivity].
  destruct (pipe_init_returns (inject_Z (WIDTH + 20)) (draw inp))
    as (p & -> & Hc & _ & Hp & _).
  exists p. auto.
Qed.

Lemma spawn_fields (inp : Input) (g : Game) :
  exists g2, spawn inp g = Ok g2 /\
    bird g2 = bird g /\ score g2 = score g /\ high g2 = high g /\
    running g2 = running g /\ started g2 = started g /\
    game_over g2 = game_over g /\
    (exists more, heap g2 = heap g ++ more) /\
    (wf g -> wf g2).
Proof.
  destruct (spawn_cases inp g) as [->|(p & _ & _ & ->)]; eexists;
    (split; [reflexivity|]); simpl; repeat apply conj; auto.
  - exists []. rewrite app_nil_r. reflexivity.
  - eauto.
  - intros (Hnd & Hin & Hx). unfold wf. simpl. repeat apply conj; auto.
    + apply NoDup_app. repeat apply conj; [exact Hnd | | apply NoDup_singleton].
      intros q Hq Hq'. apply list_elem_of_singleton in Hq'. subst q.
      apply Hin in Hq. lia.
    + intros q Hq. rewrite length_app. simpl.
      apply elem_of_app in Hq as [Hq|Hq].
      * apply Hin in Hq. lia.
      * apply list_elem_of_singleton in Hq. subst q. lia.
Qed.

Lemma passed_in_app (h more : list Pipe.t) (q : nat) :
  passed_in h q -> passed_in (h ++ more) q.
Proof.
  intros (o & Ho & Hp). exists o. split; [|exact Hp].
  apply lookup_app_l_Some, Ho.
Qed.

(* --------------------------------------------------------------------- *)
(*  One frame, many frames                                                *)
(* --------------------------------------------------------------------- *)

Section FrameFacts.

Variable colliderect : Rect -> Rect -> bool.

(** A frame never raises; its result is assembled from the state at
    loop entry and the state the pipe loop ends in. *)
Lemma frame_inv (inp : Input) (g : Game) (disk : FileState) :
  exists g2 s',
    before_loop inp g = Ok g2 /\
    pipes_loop (dt inp) (Bird.x (bird g2)) (pipes g2)
      (mkLoop (heap g2) (pipes g2) (score g2) (high g2)
              disk (faults inp) []) = Ok s' /\
    frame colliderect inp g disk =
      Ok (mkGame
            (if started g2 && negb (game_over g2)
             then Bird.update (dt inp) (bird g2)
             else Bird.bob (dt inp) (bird g2))
            (l_heap s') (l_pipes s') (last_pipe_time g2)
            (l_score s') (l_high s') (running g2) (started g2)
            (if started g2 && negb (game_over g2)
             then collision colliderect
                    (Bird.update (dt inp) (bird g2)) (l_heap s') (l_pipes s')
             else game_over g2),
          l_disk s', l_scored s').
Proof.
  unfold frame, before_loop.
  destruct (spawn_fields inp (event_loop (ev_ticks inp) (events inp) g))
    as (g2 & Hg2 & _).
  rewrite Hg2. cbn [bind].
  destruct (pipes_loop_returns (dt inp) (Bird.x (bird g2)) (pipes g2)
              (mkLoop (heap g2) (pipes g2) (score g2) (high g2)
                      disk (faults inp) [])) as (s' & Hs'); [simpl; lia|].
  rewrite Hs'. cbn [bind].
  exists g2, s'. split; [reflexivity|]. split; [exact Hs'|].
  destruct (started g2 && negb (game_over g2)); reflexivity.
Qed.

Lemma before_loop_fields (inp : Input) (g g2 : Game) :
  before_loop inp g = Ok g2 ->
  high g2 = high g /\ (exists more, heap g2 = heap g ++ more) /\
  (wf g -> wf g2).
Proof.
  unfold before_loop. intros H2.
  destruct (spawn_fields inp (event_loop (ev_ticks inp) (events inp) g))
    as (g2' & Hg2 & _ & _ & Hh & _ & _ & _ & Hheap & Hwf).
  assert (g2' = g2) by congruence. subst g2'.
  rewrite event_loop_high, event_loop_heap in *.
  repeat apply conj; auto.
  intros Hg. apply Hwf, wf_event_loop, Hg.
Qed.

Lemma frame_high_mono (inp : Input) (g g' : Game) (disk disk' : FileState)
      (ev : list nat) :
  frame colliderect inp g disk = Ok (g', disk', ev) ->
  (high g <= high g')%Z.
Proof.
  destruct (frame_inv inp g disk) as (g2 & s' & H2 & Hloop & ->).
  intros [= <- _ _]. simpl.
  apply pipes_loop_high_mono in Hloop. simpl in Hloop.
  destruct (before_loop_fields _ _ _ H2) as (Hh & _). lia.
Qed.

Lemma wf_frame (inp : Input) (g g' : Game) (disk disk' : FileState)
      (ev : list nat) :
  wf g ->
  frame colliderect inp g disk = Ok (g', disk', ev) ->
  wf g'.
Proof.
  intros Hwf.
  destruct (frame_inv inp g disk) as (g2 & s' & H2 & Hloop & ->).
  intros [= <- _ _].
  destruct (before_loop_fields _ _ _ H2) as (_ & _ & Hwf2).
  destruct (Hwf2 Hwf) as (Hnd & Hin & Hx).
  pose proof (pipes_loop_pipes_suffix _ _ _ _ _ Hloop) as Hsuf.
  pose proof (pipes_loop_heap_length _ _ _ _ _ Hloop) as Hlen.
  simpl in Hsuf, Hlen.
  unfold wf. simpl. repeat apply conj.
  - destruct Hsuf as [k Hk]. rewrite Hk in Hnd.
    apply NoDup_app in Hnd. tauto.
  - intros p Hp. rewrite Hlen. apply Hin. eapply elem_of_suffix; eauto.
  - destruct (started g2 && negb (game_over g2)); exact Hx.
Qed.

(** The pipes that score in a frame: each once, none that was already
    marked passed, all marked passed when the frame ends; the marks of
    before the frame stay. *)
Lemma frame_events (inp : Input) (g g' : Game) (disk disk' : FileState)
      (ev : list nat) :
  frame colliderect inp g disk = Ok (g', disk', ev) ->
  NoDup ev /\
  (forall p, p ∈ ev -> ~ passed_in (heap g) p) /\
  (forall p, p ∈ ev -> passed_in (heap g') p) /\
  (forall p, passed_in (heap g) p -> passed_in (heap g') p).
Proof.
  destruct (frame_inv inp g disk) as (g2 & s' & H2 & Hloop & ->).
  intros [= <- _ <-]. simpl.
  destruct (before_loop_fields _ _ _ H2) as (_ & (more & Hheap) & _).
  destruct (pipes_loop_events _ _ _ _ _ Hloop)
    as (new & Hsc & _ & Hnd & Hfresh & Hset & Hmono).
  simpl in Hsc, Hfresh, Hmono. subst new.
  repeat apply conj; auto.
  - intros p Hp Hpass. apply (Hfresh p Hp).
    rewrite Hheap. apply passed_in_app, Hpass.
  - intros p Hpass. apply Hmono. rewrite Hheap. apply passed_in_app, Hpass.
Qed.

(** Any number of frames: never an exception, the high score never
    lower, no pipe scoring twice. *)
Lemma frames_spec (inps : list Input) :
  forall g disk,
  exists g' disk' ev,
    frames colliderect inps g disk = Ok (g', disk', ev) /\
    (high g <= high g')%Z /\
    NoDup ev /\
    (forall p, p ∈ ev -> ~ passed_in (heap g) p) /\
    (forall p, p ∈ ev -> passed_in (heap g') p) /\
    (forall p, passed_in (heap g) p -> passed_in (heap g') p) /\
    (wf g -> wf g').
Proof.
  induction inps as [|inp rest IH]; intros g disk; simpl.
  - exists g, disk, []. repeat apply conj; auto; try lia.
    + apply NoDup_nil_2.
    + intros p Hp. apply elem_of_nil in Hp. contradiction.
    + intros p Hp. apply elem_of_nil in Hp. contradiction.
  - destruct (running g).
    2:{ exists g, disk, []. repeat apply conj; auto; try lia.
        - apply NoDup_nil_2.
        - intros p Hp. apply elem_of_nil in Hp. contradiction.
        - intros p Hp. apply elem_of_nil in Hp. contradiction. }
    destruct (frame_inv inp g disk) as (g2 & s' & _ & _ & Hf).
    remember (frame colliderect inp g disk) as r eqn:Hr.
    rewrite Hf. cbn [bind]. rewrite Hf in Hr. symmetry in Hr.
    match type of Hr with _ = Ok (?a, ?b, ?c) =>
      set (g1 := a) in *; set (d1 := b) in *; set (ev1 := c) in * end.
    destruct (IH g1 d1) as (g' & disk' & ev2 & -> & Hh & Hnd & Hfr & Hset & Hmono & Hwf).
    cbn [bind].
    pose proof (frame_high_mono _ _ _ _ _ _ Hr) as Hh1.
    destruct (frame_events _ _ _ _ _ _ Hr) as (Hnd1 & Hfr1 & Hset1 & Hmono1).
    exists g', disk', (ev1 ++ ev2).
    repeat apply conj; auto; try lia.
    + apply NoDup_app. repeat apply conj; auto.
      intros p Hp Hp'. apply (Hfr p Hp'), Hset1, Hp.
    + intros p Hp. apply elem_of_app in Hp as [Hp|Hp]; [auto|].
      intros Hpass. apply (Hfr p Hp), Hmono1, Hpass.
    + intros p Hp. apply elem_of_app in Hp as [Hp|Hp]; auto.
    + intros Hg. apply Hwf. eapply wf_frame; eauto.
Qed.

End FrameFacts.

(* --------------------------------------------------------------------- *)
(*  Session properties                                                    *)
(* --------------------------------------------------------------------- *)

Lemma setup_returns (t0 : Z) (disk : FileState) :
  exists g, setup t0 disk = Ok g /\ wf g /\ heap g = [] /\
            load_highscore disk = Ok (high g).
Proof.
  unfold setup. destruct (load_highscore_total disk) as (h & ->).
  cbn [bind]. eexists. split; [reflexivity|].
  unfold wf. simpl. repeat apply conj; auto.
  - apply NoDup_nil_2.
  - intros p Hp. apply elem_of_nil in Hp. contradiction.
Qed.

Section Session.

Variable colliderect : Rect -> Rect -> bool.

(** C6. A frame never lowers the best score held in memory, whatever
    the events, times, random draw and write faults of the frame and
    whatever the state it starts from; nor does any sequence of frames,
    and a whole run of the program ends with a best score at least the
    one loaded at start.  None of these raises. *)
Theorem best_score_never_decreases :
  (forall inp g disk, exists g' disk' ev,
      frame colliderect inp g disk = Ok (g', disk', ev) /\
      (high g' >= high g)%Z) /\
  (forall inps g disk, exists g' disk' ev,
      frames colliderect inps g disk = Ok (g', disk', ev) /\
      (high g' >= high g)%Z) /\
  (forall t0 inps disk, exists h g' disk' ev,
      load_highscore disk = Ok h /\
      run_game colliderect t0 inps disk = Ok (g', disk', ev) /\
      (high g' >= h)%Z).
Proof.
  repeat apply conj.
  - intros inp g disk.
    destruct (frame_inv colliderect inp g disk) as (g2 & s' & _ & _ & Hf).
    eexists _, _, _. split; [exact Hf|].
    apply frame_high_mono in Hf. lia.
  - intros inps g disk.
    destruct (frames_spec colliderect inps g disk)
      as (g' & disk' & ev & Hf & Hh & _).
    exists g', disk', ev. split; [exact Hf | lia].
  - intros t0 inps disk. unfold run_game.
    destruct (setup_returns t0 disk) as (g & -> & _ & _ & Hload).
    cbn [bind].
    destruct (frames_spec colliderect inps g disk)
      as (g' & disk' & ev & Hf & Hh & _).
    exists (high g), g', disk', ev. repeat apply conj; auto. lia.
Qed.

(** C7. Scoring fires once per pipe.  In a frame that starts from a
    well-formed game, the pipes that score are exactly the pipes of the
    deque (as it is when the update loop starts) that are not yet
    marked passed and whose right edge, once moved by PIPE_SPEED, is
    strictly left of BIRD_X; each of them scores once, the score grows
    by their number, and each is marked passed when the frame ends.
    Over any sequence of frames from any game no pipe scores twice, a
    pipe already marked passed never scores, and a mark once set stays.
    The same holds of a whole run of the program. *)
Theorem scoring_exactly_once :
  (forall inp g disk, wf g ->
     exists g2 g' disk' ev,
       before_loop inp g = Ok g2 /\
       frame colliderect inp g disk = Ok (g', disk', ev) /\
       NoDup ev /\
       score g' = (score g2 + Z.of_nat (length ev))%Z /\
       (forall p, p ∈ ev <->
          p ∈ pipes g2 /\
          exists o, heap g2 !! p = Some o /\ Pipe.passed o = false /\
                    Pipe.x o - PIPE_SPEED + Pipe.w o < inject_Z BIRD_X) /\
       (forall p, p ∈ ev -> passed_in (heap g') p) /\
       wf g') /\
  (forall inps g disk,
     exists g' disk' ev,
       frames colliderect inps g disk = Ok (g', disk', ev) /\
       NoDup ev /\
       (forall p, passed_in (heap g) p -> (p ∉ ev) /\ passed_in (heap g') p) /\
       (forall p, p ∈ ev -> passed_in (heap g') p)) /\
  (forall t0 inps disk,
     exists g' disk' ev,
       run_game colliderect t0 inps disk = Ok (g', disk', ev) /\
       NoDup ev /\
       (forall p, p ∈ ev -> passed_in (heap g') p)).
Proof.
  repeat apply conj.
  - intros inp g disk Hwf.
    destruct (frame_inv colliderect inp g disk) as (g2 & s' & H2 & Hloop & Hf).
    eexists g2, _, _, _. split; [exact H2|]. split; [exact Hf|].
    destruct (frame_events _ _ _ _ _ _ _ Hf) as (Hnd & _ & Hset & _).
    pose proof (wf_frame _ _ _ _ _ _ _ Hwf Hf) as Hwf'.
    destruct (before_loop_fields _ _ _ H2) as (_ & _ & Hwf2).
    destruct (Hwf2 Hwf) as (Hnd2 & _ & Hx).
    destruct (pipes_loop_events _ _ _ _ _ Hloop) as (new & Hsc & Hn & _).
    destruct (pipes_loop_scoring _ _ _ _ _ Hnd2 Hloop)
      as (_ & new' & Hsc' & Hiff).
    cbn [l_scored l_score l_heap app] in Hsc, Hsc', Hn, Hiff.
    cbn [heap] in Hset.
    rewrite Hx in Hiff.
    assert (new' = new) by congruence. subst new'.
    rewrite Hsc in *.
    split; [exact Hnd|]. split; [exact Hn|]. split; [exact Hiff|].
    split; [exact Hset | exact Hwf'].
  - intros inps g disk.
    destruct (frames_spec colliderect inps g disk)
      as (g' & disk' & ev & Hf & _ & Hnd & Hfr & Hset & Hmono & _).
    exists g', disk', ev. split; [exact Hf|]. split; [exact Hnd|].
    split; [|exact Hset].
    intros p Hpass. split; [|apply Hmono, Hpass].
    intros Hp. exact (Hfr p Hp Hpass).
  - intros t0 inps disk. unfold run_game.
    destruct (setup_returns t0 disk) as (g & -> & _).
    cbn [bind].
    destruct (frames_spec colliderect inps g disk)
      as (g' & disk' & ev & Hf & _ & Hnd & _ & Hset & _).
    exists g', disk', ev. auto.
Qed.

End Session.

Lemma wf_crashed : wf crashed.
Proof.
  unfold wf, crashed. simpl. repeat apply conj.
  - apply NoDup_singleton.
  - intros p Hp. apply list_elem_of_singleton in Hp. subst p. lia.
  - reflexivity.
Qed.

(** C7, witness: the crashed game is well formed, and a quiet frame from
    it goes through with a trace that holds no pipe twice. *)
Lemma scoring_exactly_once_witness :
  wf crashed /\
  exists g' disk' ev,
    frame pygame_colliderect (quiet 2000) crashed Absent = Ok (g', disk', ev) /\
    NoDup ev /\
    (forall p, p ∈ ev -> passed_in (heap g') p).
Proof.
  split; [exact wf_crashed|].
  destruct (proj1 (scoring_exactly_once pygame_colliderect)
              (quiet 2000) crashed Absent wf_crashed)
    as (g2 & g' & disk' & ev & _ & Hf & Hnd & _ & _ & Hset & _).
  exists g', disk', ev. auto.
Defined.

Section Persistence.

Variable colliderect : Rect -> Rect -> bool.

(** Disk content and write faults have no say in what a frame does to
    the game. *)
Lemma frame_ignores_disk (inp : Input) (g : Game) (disk disk2 : FileState)
      (fl2 : list Fault) :
  exists g' ev d1 d2,
    frame colliderect inp g disk = Ok (g', d1, ev) /\
    frame colliderect (with_faults fl2 inp) g disk2 = Ok (g', d2, ev).
Proof.
  destruct (frame_inv colliderect inp g disk)
    as (g2 & s1 & H2 & Hloop1 & Hf1).
  destruct (frame_inv colliderect (with_faults fl2 inp) g disk2)
    as (g2' & s2 & H2' & Hloop2 & Hf2).
  change (before_loop (with_faults fl2 inp) g) with (before_loop inp g) in H2'.
  assert (g2' = g2) by congruence. subst g2'.
  cbn [with_faults dt faults] in Hloop2, Hf2.
  pose proof (pipes_loop_same_play (dt inp) (Bird.x (bird g2)) (pipes g2)
                (mkLoop (heap g2) (pipes g2) (score g2) (high g2)
                        disk (faults inp) [])
                (mkLoop (heap g2) (pipes g2) (score g2) (high g2)
                        disk2 fl2 [])) as Hsame.
  rewrite Hloop1, Hloop2 in Hsame.
  destruct Hsame as (Hh & Hp & Hs & Hi & Ht);
    [unfold same_play; simpl; auto|].
  rewrite <- Hh, <- Hp, <- Hs, <- Hi, <- Ht in Hf2.
  eexists _, _, _, _. split; [exact Hf1 | exact Hf2].
Qed.

(** C8. Reading the best score never raises: load_highscore returns a
    value for every state of the file, and that value is 0 when the
    file is missing, when it cannot be read, and when its content is
    not an integer literal.  save_highscore returns normally whatever
    goes wrong with the write.  A frame of the game never raises, and
    the game and the score events it yields are the same whatever the
    disk holds and whichever writes fail. *)
Theorem persistence_never_raises :
  (forall fs, exists v, load_highscore fs = Ok v) /\
  load_highscore Absent = Ok 0%Z /\
  load_highscore Unreadable = Ok 0%Z /\
  (forall s e, int_of_str (strip s) = Raise e ->
               load_highscore (Text s) = Ok 0%Z) /\
  (forall v ft fs, fst (save_highscore v ft fs) = Ok tt) /\
  (forall v fs, snd (save_highscore v OpenFails fs) = fs) /\
  (forall inp g disk disk2 fl2, exists g' ev d1 d2,
      frame colliderect inp g disk = Ok (g', d1, ev) /\
      frame colliderect (with_faults fl2 inp) g disk2 = Ok (g', d2, ev)).
Proof.
  split; [exact load_highscore_total|].
  split; [reflexivity|]. split; [reflexivity|].
  split.
  { intros s e He. unfold load_highscore. cbn [read_file bind].
    destruct (strip s) as [|c r]; [reflexivity|].
    rewrite He. reflexivity. }
  split; [exact save_highscore_returns|].
  split; [reflexivity|].
  exact frame_ignores_disk.
Qed.

(** C9. In a game that is over, the event loop fed one SPACE or one R
    key press leaves the session running (started, not over) with the
    score 0, a fresh bird, an empty deque and the spawn timer set to
    the current tick; the best score is kept.  The whole frame of that
    key press, when no more than PIPE_INTERVAL ms pass between the two
    clock readings, ends running with score 0, no pipe, no score event
    and the fresh bird advanced by its first update. *)
Theorem restart_from_game_over (ticks : Z) (k : Key) (g : Game) :
  game_over g = true ->
  k = K_SPACE \/ k = K_r ->
  (let g' := event_loop ticks [KEYDOWN k] g in
   started g' = true /\ game_over g' = false /\
   score g' = 0%Z /\ bird g' = Bird.__init__ /\ pipes g' = [] /\
   last_pipe_time g' = ticks /\
   high g' = high g /\ running g' = running g) /\
  (forall inp disk,
     events inp = [KEYDOWN k] ->
     (now inp - ev_ticks inp <= PIPE_INTERVAL)%Z ->
     exists g',
       frame colliderect inp g disk = Ok (g', disk, []) /\
       started g' = true /\ game_over g' = false /\
       score g' = 0%Z /\ pipes g' = [] /\
       bird g' = Bird.update (dt inp) Bird.__init__ /\
       last_pipe_time g' = ev_ticks inp /\
       high g' = high g).
Proof.
  intros Hover Hk.
  assert (Hev : forall t, event_loop t [KEYDOWN k] g = restart t
                  (if negb (started g) && match k with K_SPACE => true | _ => false end
                   then set_bird Bird.__init__ (set_started true g) else g)).
  { intros t. destruct Hk as [->| ->]; cbn [event_loop on_keydown].
    - destruct (started g) eqn:Hs; cbn [negb andb].
      + rewrite Hover. reflexivity.
      + cbn [game_over set_bird set_started]. rewrite Hover. reflexivity.
    - rewrite Hover, andb_false_r. reflexivity. }
  split.
  - cbv zeta. rewrite Hev.
    destruct (negb (started g) && _); repeat split.
  - intros inp disk Hevs Hnow.
    assert (Hg1 : event_loop (ev_ticks inp) (events inp) g =
                  mkGame Bird.__init__ (heap g) [] (ev_ticks inp) 0%Z
                         (high g) (running g) true false).
    { rewrite Hevs, Hev. destruct (negb (started g) && _); reflexivity. }
    unfold frame. rewrite Hg1. unfold spawn.
    cbn [started game_over last_pipe_time negb andb].
    destruct (Z.gtb_spec (now inp - ev_ticks inp) PIPE_INTERVAL) as [Hgt|_];
      [lia|].
    cbn [bind pipes pipes_loop].
    eexists. split; [reflexivity|]. cbn.
    repeat split.
Qed.

End Persistence.

(** C8, witness: a file holding "abc" is not an integer literal, and the
    best score loaded from it is 0. *)
Lemma persistence_never_raises_witness :
  int_of_str (strip "abc") = Raise ValueError /\
  load_highscore (Text "abc") = Ok 0%Z.
Proof.
  assert (H : int_of_str (strip "abc") = Raise ValueError) by reflexivity.
  split; [exact H|].
  exact (proj1 (proj2 (proj2 (proj2
           (persistence_never_raises pygame_colliderect)))) "abc"%string _ H).
Defined.

(** C9, witness: the R key in the crashed game. *)
Lemma restart_from_game_over_witness :
  game_over crashed = true /\
  score (event_loop 2000 [KEYDOWN K_r] crashed) = 0%Z /\
  pipes (event_loop 2000 [KEYDOWN K_r] crashed) = [] /\
  exists g',
    frame pygame_colliderect (press K_r 2000) crashed Absent
      = Ok (g', Absent, []) /\
    started g' = true /\ game_over g' = false.
Proof.
  assert (Hover : game_over crashed = true) by reflexivity.
  destruct (restart_from_game_over pygame_colliderect 2000 K_r crashed
              Hover (or_intror eq_refl)) as (Hloop & Hframe).
  destruct Hloop as (_ & _ & Hscore & _ & Hpipes & _).
  destruct (Hframe (press K_r 2000) Absent eq_refl ltac:(simpl; unfold PIPE_INTERVAL; lia))
    as (g' & Hf & Hs & Ho & _).
  split; [exact Hover|]. split; [exact Hscore|]. split; [exact Hpipes|].
  exists g'. auto.
Defined.

(* --------------------------------------------------------------------- *)
(*  Frames of a game that is over                                         *)
(* --------------------------------------------------------------------- *)

(** C1, what the code does.  A quiet frame of the crashed game leaves the
    bird where it is and the game over, but the "update pipes" loop still
    runs: the pipe moves from x = 14 to x = 10.7, its right edge passes
    BIRD_X, it is marked passed, the score goes from 0 to 1 and the best
    score 1 is written to disk.  The same is reached from program start:
    wait 1000 ms, press SPACE once and leave the bird alone; after 62
    frames the game is over with score 0 and the pipe at 295.4, one frame
    later the pipe is at 292.1, and after 148 frames the score is 1 with
    the game still over. *)
Theorem game_over_frame_moves_pipes_and_scores :
  (forall colliderect, exists g' o',
     frame colliderect (quiet 2000) crashed Absent
       = Ok (g', Text "1", [0%nat]) /\
     game_over crashed = true /\ game_over g' = true /\
     Bird.y (bird g') = Bird.y (bird crashed) /\
     Bird.vel (bird g') = Bird.vel (bird crashed) /\
     heap crashed !! 0%nat = Some (Pipe.mk 14 88 80 320 false) /\
     heap g' !! 0%nat = Some o' /\
     Pipe.x o' == 10.7 /\ Pipe.passed o' = true /\
     score crashed = 0%Z /\ score g' = 1%Z /\ high g' = 1%Z) /\
  (exists g d o,
     run_game pygame_colliderect 0 (press K_SPACE 1000 :: quiets 61 1016) Absent
       = Ok (g, d, []) /\
     game_over g = true /\ score g = 0%Z /\
     heap g !! 0%nat = Some o /\ Pipe.x o == 295.4 /\ Pipe.passed o = false /\
     Bird.y (bird g) == 591.1) /\
  (exists g d o,
     run_game pygame_colliderect 0 (press K_SPACE 1000 :: quiets 62 1016) Absent
       = Ok (g, d, []) /\
     game_over g = true /\ score g = 0%Z /\
     heap g !! 0%nat = Some o /\ Pipe.x o == 292.1 /\
     Bird.y (bird g) == 591.1) /\
  (exists g o,
     run_game pygame_colliderect 0 (press K_SPACE 1000 :: quiets 147 1016) Absent
       = Ok (g, Text "1", [0%nat]) /\
     game_over g = true /\ score g = 1%Z /\ high g = 1%Z /\
     heap g !! 0%nat = Some o /\ Pipe.passed o = true /\
     Bird.y (bird g) == 591.1).
Proof.
  split; [|split; [|split]].
  - intros colliderect. eexists _, _.
    split; [reflexivity|]. repeat split.
  - eexists _, _, _. split; [vm_compute; reflexivity|].
    repeat split.
  - eexists _, _, _. split; [vm_compute; reflexivity|].
    repeat split.
  - eexists _, _. split; [vm_compute; reflexivity|].
    repeat split.
Qed.

(* ===================================================================== *)
(*  Further properties of the game loop                                   *)
(* ===================================================================== *)

(* --------------------------------------------------------------------- *)
(*  Events                                                                *)
(* --------------------------------------------------------------------- *)

Arguments on_keydown : simpl never.

Lemma on_keydown_running (ticks : Z) (k : Key) (g : Game) :
  running (on_keydown ticks k g) = running g.
Proof.
  apply (on_keydown_rule (fun g' => running g' = running g)); auto.
Qed.

Lemma event_loop_running (ticks : Z) (evs : list Event) :
  forall g, running (event_loop ticks evs g)
            = if existsb is_quit evs then false else running g.
Proof.
  induction evs as [|e rest IH]; intros g; simpl; [reflexivity|].
  destruct e as [|k|]; simpl; auto.
  destruct k; simpl; auto; rewrite IH, on_keydown_running; reflexivity.
Qed.

(** Without a SPACE key press, and without an R key press when the game
    is over, the event loop changes nothing but [running]. *)
Lemma event_loop_no_key (ticks : Z) (evs : list Event) (g : Game) :
  KEYDOWN K_SPACE ∉ evs ->
  (game_over g = true -> KEYDOWN K_r ∉ evs) ->
  event_loop ticks evs g
  = if existsb is_quit evs then set_running false g else g.
Proof.
  induction evs as [|e rest IH]; intros Hs Hr; simpl; [reflexivity|].
  apply not_elem_of_cons in Hs as [Hs1 Hs].
  assert (Hr' : game_over g = true -> KEYDOWN K_r ∉ rest).
  { intros Ho. specialize (Hr Ho). apply not_elem_of_cons in Hr. tauto. }
  destruct e as [|k|]; simpl; auto.
  destruct k; simpl; auto; try congruence.
  unfold on_keydown. destruct (game_over g) eqn:Ho; [|auto].
  specialize (Hr eq_refl). apply not_elem_of_cons in Hr. tauto.
Qed.

(** X12.  Events behind a QUIT or an ESCAPE key press are never handled. *)
Theorem quit_drops_later_events (ticks : Z) (pre post : list Event)
        (q : Event) (g : Game) :
  is_quit q = true ->
  event_loop ticks (pre ++ q :: post) g = event_loop ticks (pre ++ [q]) g /\
  running (event_loop ticks (pre ++ q :: post) g) = false.
Proof.
  intros Hq. split.
  - revert g. induction pre as [|e rest IH]; intros g; simpl.
    + destruct q as [|k|]; try discriminate.
      * reflexivity.
      * destruct k; try discriminate. reflexivity.
    + destruct e as [|k|]; auto. destruct k; auto.
  - rewrite event_loop_running, existsb_app. simpl. rewrite Hq.
    rewrite orb_true_r. reflexivity.
Qed.

(* --------------------------------------------------------------------- *)
(*  The pipe loop moves every pipe                                        *)
(* --------------------------------------------------------------------- *)

Lemma iter_moves (dt bx : Q) (p : nat) (s s' : Loop) (o : Pipe.t) :
  iter_outcome dt bx p s s' ->
  l_heap s !! p = Some o ->
  exists o', l_heap s' !! p = Some o' /\ moved o o'.
Proof.
  intros [Hnone | o1 dq Ho _ _ | o1 dq Ho _ _ _] Hp; [congruence| |];
    assert (o1 = o) by congruence; subst o1; cbn [l_heap].
  - exists (Pipe.update dt o). rewrite list_lookup_alter_eq, Ho.
    split; [reflexivity|]. unfold moved. simpl.
    repeat apply conj; auto. apply num_eq.
  - exists (Pipe.set_passed (Pipe.update dt o)).
    rewrite !list_lookup_alter_eq, Ho.
    split; [reflexivity|]. unfold moved. simpl.
    repeat apply conj; auto. apply num_eq.
Qed.

Lemma pipes_loop_moves (dt bx : Q) (snapshot : list nat) :
  forall s s',
    NoDup snapshot ->
    pipes_loop dt bx snapshot s = Ok s' ->
    forall q o, q ∈ snapshot -> l_heap s !! q = Some o ->
                exists o', l_heap s' !! q = Some o' /\ moved o o'.
Proof.
  induction snapshot as [|p rest IH]; intros s s' Hnd Hrun q o Hq Ho.
  - apply elem_of_nil in Hq. contradiction.
  - simpl in Hrun.
    destruct (pipe_iter dt bx p s) as [s1|] eqn:H1; [|discriminate].
    cbn [bind] in Hrun. apply pipe_iter_outcome in H1.
    apply NoDup_cons in Hnd as [Hp Hnd].
    destruct (decide (q = p)) as [->|Hne].
    + destruct (iter_moves _ _ _ _ _ _ H1 Ho) as (o' & Ho' & Hm).
      exists o'. split; [|exact Hm].
      destruct (pipes_loop_scoring _ _ _ _ _ Hnd Hrun) as (Hout & _).
      rewrite (Hout p Hp). exact Ho'.
    + apply elem_of_cons in Hq as [Hq|Hq]; [contradiction|].
      apply (IH s1 s' Hnd Hrun q o Hq).
      rewrite (iter_heap_other _ _ _ _ _ q H1) by congruence. exact Ho.
Qed.

Lemma event_loop_pipes (ticks : Z) (evs : list Event) (g : Game) :
  pipes (event_loop ticks evs g) = pipes g \/
  pipes (event_loop ticks evs g) = [].
Proof.
  apply (event_loop_rule
           (fun g' => pipes g' = pipes g \/ pipes g' = [])); auto.
Qed.

Lemma frames_stopped (colliderect : Rect -> Rect -> bool)
      (inps : list Input) (g : Game) (disk : FileState) :
  running g = false -> frames colliderect inps g disk = Ok (g, disk, []).
Proof. intros Hr. destruct inps; simpl; [|rewrite Hr]; reflexivity. Qed.

Section MoreFrames.

Variable colliderect : Rect -> Rect -> bool.

(** X5.  Whatever the session state and whatever dt, a frame moves every
  pipe that is in the deque when the update loop starts to the left by
  exactly PIPE_SPEED, once, and keeps its width and heights and a
  passed mark it has; pipes outside the deque are not touched. *)
Theorem frame_moves_every_pipe (inp : Input) (g : Game) (disk : FileState) :
wf g ->
exists g2 g' disk' ev,
  before_loop inp g = Ok g2 /\
  frame colliderect inp g disk = Ok (g', disk', ev) /\
  (forall p o, p ∈ pipes g2 -> heap g2 !! p = Some o ->
     exists o', heap g' !! p = Some o' /\
       Pipe.x o' == Pipe.x o - PIPE_SPEED /\
       Pipe.w o' = Pipe.w o /\
       Pipe.h_top o' = Pipe.h_top o /\
       Pipe.h_bottom o' = Pipe.h_bottom o /\
       (Pipe.passed o = true -> Pipe.passed o' = true)) /\
  (forall p, p ∉ pipes g2 -> heap g' !! p = heap g2 !! p).
Proof.
intros Hwf.
destruct (frame_inv colliderect inp g disk) as (g2 & s' & H2 & Hloop & Hf).
eexists g2, _, _, _. split; [exact H2|]. split; [exact Hf|].
destruct (before_loop_fields _ _ _ H2) as (_ & _ & Hwf2).
destruct (Hwf2 Hwf) as (Hnd2 & _ & _).
cbn [heap]. split.
- intros p o Hp Ho.
  exact (pipes_loop_moves _ _ _ _ _ Hnd2 Hloop p o Hp Ho).
- intros p Hp.
  destruct (pipes_loop_scoring _ _ _ _ _ Hnd2 Hloop) as (Hout & _).
  exact (Hout p Hp).
Qed.

(** X6.  Within a frame the deque changes at its two ends only.  When the
  update loop starts it is the deque of before the frame, or empty
  (after a restart), with at most one new pipe appended; the loop then
  drops pipes from the head only.  The heap gains at most one pipe. *)
Theorem frame_deque_fifo (inp : Input) (g : Game) (disk : FileState) :
exists g2 g' disk' ev,
  before_loop inp g = Ok g2 /\
  frame colliderect inp g disk = Ok (g', disk', ev) /\
  pipes g' `suffix_of` pipes g2 /\
  (pipes g2 = pipes g \/ pipes g2 = [] \/
   pipes g2 = pipes g ++ [length (heap g)] \/
   pipes g2 = [length (heap g)]) /\
  (length (heap g) <= length (heap g') <= S (length (heap g)))%nat.
Proof.
destruct (frame_inv colliderect inp g disk) as (g2 & s' & H2 & Hloop & Hf).
eexists g2, _, _, _. split; [exact H2|]. split; [exact Hf|].
pose proof (pipes_loop_pipes_suffix _ _ _ _ _ Hloop) as Hsuf.
pose proof (pipes_loop_heap_length _ _ _ _ _ Hloop) as Hlen.
cbn [l_pipes l_heap] in Hsuf, Hlen. cbn [pipes heap].
split; [exact Hsuf|]. rewrite Hlen.
unfold before_loop in H2.
pose proof (event_loop_pipes (ev_ticks inp) (events inp) g) as Hp1.
pose proof (event_loop_heap (ev_ticks inp) (events inp) g) as Hh1.
destruct (spawn_cases inp (event_loop (ev_ticks inp) (events inp) g))
  as [Hs|(p & _ & _ & Hs)]; rewrite Hs in H2; injection H2 as <-.
- rewrite Hh1. split; [|lia]. destruct Hp1 as [->| ->]; auto.
- cbn [pipes heap]. rewrite Hh1, length_app. simpl.
  split; [|lia]. destruct Hp1 as [->| ->]; auto.
Qed.

(** X8.  A game that is over stays over and its bird stays put as long as
  neither SPACE nor R is pressed: the frame keeps game_over, started,
  the spawn timer and the bird's position, velocity and angle, creates
  no pipe and only drops pipes from the head of the deque. *)
Theorem game_over_until_restart (inp : Input) (g : Game) (disk : FileState) :
game_over g = true ->
KEYDOWN K_SPACE ∉ events inp ->
KEYDOWN K_r ∉ events inp ->
exists g' disk' ev,
  frame colliderect inp g disk = Ok (g', disk', ev) /\
  game_over g' = true /\ started g' = started g /\
  Bird.x (bird g') = Bird.x (bird g) /\
  Bird.y (bird g') = Bird.y (bird g) /\
  Bird.vel (bird g') = Bird.vel (bird g) /\
  Bird.angle (bird g') = Bird.angle (bird g) /\
  last_pipe_time g' = last_pipe_time g /\
  length (heap g') = length (heap g) /\
  pipes g' `suffix_of` pipes g.
Proof.
intros Hover Hs Hr.
destruct (frame_inv colliderect inp g disk) as (g2 & s' & H2 & Hloop & Hf).
eexists _, _, _. split; [exact Hf|].
pose proof (pipes_loop_pipes_suffix _ _ _ _ _ Hloop) as Hsuf.
pose proof (pipes_loop_heap_length _ _ _ _ _ Hloop) as Hlen.
cbn [l_pipes l_heap] in Hsuf, Hlen.
unfold before_loop in H2.
rewrite (event_loop_no_key _ _ _ Hs (fun _ => Hr)) in H2.
assert (Hg2 : g2 = g \/ g2 = set_running false g).
{ unfold spawn in H2.
  destruct (existsb is_quit (events inp)); cbn [started game_over set_running] in H2;
    rewrite Hover, andb_false_r in H2; cbn [andb] in H2;
    injection H2 as <-; auto. }
cbn [game_over started bird last_pipe_time heap pipes].
destruct Hg2 as [->| ->]; cbn [game_over started bird last_pipe_time heap pipes set_running] in *;
  rewrite Hover, andb_false_r; repeat apply conj; auto.
Qed.

(** X11.  A frame that sees a QUIT event or an ESCAPE key press ends with
  running = False, and the loop reads no further frame after it. *)
Theorem quit_stops_the_loop (inp : Input) (g : Game) (disk : FileState) :
existsb is_quit (events inp) = true ->
exists g' disk' ev,
  frame colliderect inp g disk = Ok (g', disk', ev) /\
  running g' = false /\
  forall rest, running g = true ->
    frames colliderect (inp :: rest) g disk = Ok (g', disk', ev).
Proof.
intros Hq.
destruct (frame_inv colliderect inp g disk) as (g2 & s' & H2 & Hloop & Hf).
eexists _, _, _. split; [exact Hf|].
assert (Hrun : running g2 = false).
{ unfold before_loop in H2.
  destruct (spawn_fields inp (event_loop (ev_ticks inp) (events inp) g))
    as (g2' & Hg2 & _ & _ & _ & Hr & _).
  assert (g2' = g2) by congruence. subst g2'.
  rewrite Hr, event_loop_running, Hq. reflexivity. }
split; [exact Hrun|].
intros rest Hr. simpl. rewrite Hr, Hf. cbn [bind].
rewrite frames_stopped by exact Hrun. cbn [bind].
rewrite app_nil_r. reflexivity.
Qed.

End MoreFrames.

(** X13.  While the game is not over, R key presses, other keys and other
    events leave the game exactly as it is. *)
Theorem inert_events_change_nothing (ticks : Z) (evs : list Event) (g : Game) :
  game_over g = false ->
  Forall (fun e => e = OTHER \/ e = KEYDOWN K_other \/ e = KEYDOWN K_r) evs ->
  event_loop ticks evs g = g.
Proof.
  intros Hover Hall. induction Hall as [|e rest He _ IH]; simpl; [reflexivity|].
  destruct He as [->|[->| ->]]; simpl; auto.
  unfold on_keydown. rewrite Hover. exact IH.
Qed.

(* --------------------------------------------------------------------- *)
(*  High score file: what is written is what is read                      *)
(* --------------------------------------------------------------------- *)

Lemma rev_string_twice (s : string) :
  forall acc acc',
    rev_string acc (rev_string acc' s) = rev_string (append s acc) acc'.
Proof.
  induction s as [|c r IH]; intros acc acc'; simpl; [reflexivity|].
  rewrite IH. reflexivity.
Qed.

Lemma append_empty (s : string) : append s EmptyString = s.
Proof. induction s as [|c r IH]; simpl; [|rewrite IH]; reflexivity. Qed.

Lemma lstrip_no_blank (s : string) : no_blank s = true -> lstrip s = s.
Proof.
  destruct s as [|c r]; simpl; [reflexivity|].
  destruct (is_space c); [discriminate | reflexivity].
Qed.

Lemma rev_string_no_blank (s : string) :
  forall acc, no_blank acc = true -> no_blank s = true ->
              no_blank (rev_string acc s) = true.
Proof.
  induction s as [|c r IH]; intros acc Hacc Hs; simpl in *; [exact Hacc|].
  apply andb_true_iff in Hs as [Hc Hr].
  apply IH; [|exact Hr]. simpl. rewrite Hc, Hacc. reflexivity.
Qed.

Lemma strip_no_blank (s : string) : no_blank s = true -> strip s = s.
Proof.
  intros Hs. unfold strip.
  rewrite (lstrip_no_blank s Hs).
  rewrite lstrip_no_blank by (apply rev_string_no_blank; [reflexivity | exact Hs]).
  rewrite rev_string_twice. simpl. apply append_empty.
Qed.

Lemma no_blank_digits (d : Decimal.uint) :
  no_blank (NilEmpty.string_of_uint d) = true.
Proof. induction d; simpl; auto. Qed.

(** The digits of [d], read after the digits [d'] (kept least significant
    first), give the number of all the digits. *)
Lemma parse_digits_decimal (d : Decimal.uint) :
  forall (d' : Decimal.uint) (prev : bool),
    d <> Decimal.Nil \/ prev = true ->
    parse_digits (Z.of_N (DecimalPos.Unsigned.of_lu d')) prev
                 (NilEmpty.string_of_uint d)
    = Some (Z.of_N (DecimalPos.Unsigned.of_lu (Decimal.revapp d d'))).
Proof.
  induction d; intros d' prev Hne;
    [destruct Hne as [Hne| ->]; [congruence | reflexivity] | ..];
    cbn [NilEmpty.string_of_uint parse_digits];
    match goal with
    | |- context [digit_of ?c] =>
        let v := eval vm_compute in (digit_of c) in
        change (digit_of c) with v
    end; cbv iota beta;
    match goal with
    | |- parse_digits ?acc true _ = Some (Z.of_N (_ (Decimal.revapp (?D d) d'))) =>
        replace acc with (Z.of_N (DecimalPos.Unsigned.of_lu (D d')))
          by (cbn [DecimalPos.Unsigned.of_lu]; lia);
        change (Decimal.revapp (D d) d') with (Decimal.revapp d (D d'))
    end;
    apply IHd; right; reflexivity.
Qed.

Lemma parse_digits_pos (p : positive) :
  parse_digits 0 false (NilEmpty.string_of_uint (Pos.to_uint p))
  = Some (Z.pos p).
Proof.
  change 0%Z with (Z.of_N (DecimalPos.Unsigned.of_lu Decimal.Nil)).
  rewrite parse_digits_decimal
    by (left; apply DecimalPos.Unsigned.to_uint_nonnil).
  change (Decimal.revapp (Pos.to_uint p) Decimal.Nil)
    with (Decimal.rev (Pos.to_uint p)).
  rewrite <- DecimalPos.Unsigned.of_uint_alt, DecimalPos.Unsigned.of_to.
  reflexivity.
Qed.

Lemma str_of_int_no_blank (v : Z) : no_blank (str_of_int v) = true.
Proof.
  unfold str_of_int, NilZero.string_of_int, NilZero.string_of_uint.
  destruct v as [|p|p]; simpl; [reflexivity | |];
    destruct (Pos.to_uint p); simpl; rewrite ?no_blank_digits; reflexivity.
Qed.

Lemma str_of_int_pos (p : positive) :
  str_of_int (Z.pos p) = NilEmpty.string_of_uint (Pos.to_uint p).
Proof.
  unfold str_of_int, NilZero.string_of_int, NilZero.string_of_uint. simpl.
  pose proof (DecimalPos.Unsigned.to_uint_nonnil p) as Hne.
  destruct (Pos.to_uint p); [congruence | reflexivity..].
Qed.

Lemma str_of_int_neg (p : positive) :
  str_of_int (Z.neg p)
  = String "-" (NilEmpty.string_of_uint (Pos.to_uint p)).
Proof.
  unfold str_of_int, NilZero.string_of_int, NilZero.string_of_uint. simpl.
  pose proof (DecimalPos.Unsigned.to_uint_nonnil p) as Hne.
  destruct (Pos.to_uint p); [congruence | reflexivity..].
Qed.

(** [int(str(v))] is [v]. *)
Lemma int_of_str_of_int (v : Z) : int_of_str (str_of_int v) = Ok v.
Proof.
  unfold int_of_str. rewrite strip_no_blank by apply str_of_int_no_blank.
  destruct v as [|p|p]; [reflexivity | |].
  - rewrite str_of_int_pos.
    pose proof (parse_digits_pos p) as Hp.
    pose proof (DecimalPos.Unsigned.to_uint_nonnil p) as Hne.
    destruct (Pos.to_uint p); [congruence | ..]; cbn [NilEmpty.string_of_uint] in *;
      rewrite Hp; reflexivity.
  - rewrite str_of_int_neg, parse_digits_pos. reflexivity.
Qed.

Lemma load_written (v : Z) : load_highscore (Text (str_of_int v)) = Ok v.
Proof.
  unfold load_highscore. cbn [read_file bind].
  rewrite strip_no_blank by apply str_of_int_no_blank.
  pose proof (int_of_str_of_int v) as Hi.
  destruct (str_of_int v) eqn:Hs; [discriminate|].
  rewrite Hi. reflexivity.
Qed.


(* --------------------------------------------------------------------- *)
(*  Score, best score and the disk                                        *)
(* --------------------------------------------------------------------- *)

Lemma pipes_loop_disk (dt bx : Q) (snapshot : list nat) (s s' : Loop) :
  pipes_loop dt bx snapshot s = Ok s' ->
  (length (l_scored s) <= length (l_scored s'))%nat /\
  (length (l_scored s') = length (l_scored s) -> l_disk s' = l_disk s) /\
  (l_faults s = [] ->
   l_faults s' = [] /\
   ((length (l_scored s) < length (l_scored s'))%nat ->
    l_disk s' = Text (str_of_int (l_high s')))).
Proof.
  apply (pipes_loop_rule dt bx (fun s s' =>
    (length (l_scored s) <= length (l_scored s'))%nat /\
    (length (l_scored s') = length (l_scored s) -> l_disk s' = l_disk s) /\
    (l_faults s = [] ->
     l_faults s' = [] /\
     ((length (l_scored s) < length (l_scored s'))%nat ->
      l_disk s' = Text (str_of_int (l_high s')))))).
  - intros s0. repeat split; auto; lia.
  - intros s0 s1 p s2 (Hlen & Hsame & Hfl) [| |]; cbn [l_scored l_disk l_faults l_high];
      auto.
    rewrite length_app. simpl. split; [lia|]. split; [lia|].
    intros Hnil. destruct (Hfl Hnil) as (Hnil1 & _). rewrite Hnil1. simpl.
    split; reflexivity.
Qed.

Lemma pipes_loop_score_bounds (dt bx : Q) (snapshot : list nat) (s s' : Loop) :
  pipes_loop dt bx snapshot s = Ok s' ->
  (0 <= l_score s <= Z.max (l_high s) 0)%Z ->
  (0 <= l_score s' <= Z.max (l_high s') 0)%Z.
Proof.
  apply (pipes_loop_rule dt bx (fun s s' =>
    (0 <= l_score s <= Z.max (l_high s) 0)%Z ->
    (0 <= l_score s' <= Z.max (l_high s') 0)%Z)).
  - auto.
  - intros s0 s1 p s2 H01 [| |] Hb; specialize (H01 Hb);
      cbn [l_score l_high]; lia.
Qed.

Lemma event_loop_score (ticks : Z) (evs : list Event) (g : Game) :
  score (event_loop ticks evs g) = score g \/
  score (event_loop ticks evs g) = 0%Z.
Proof.
  apply (event_loop_rule (fun g' => score g' = score g \/ score g' = 0%Z));
    auto.
Qed.

Section ScoreFacts.

Variable colliderect : Rect -> Rect -> bool.

Lemma frame_score_bounds (inp : Input) (g g' : Game) (disk disk' : FileState)
    (ev : list nat) :
frame colliderect inp g disk = Ok (g', disk', ev) ->
(0 <= score g <= Z.max (high g) 0)%Z ->
(0 <= score g' <= Z.max (high g') 0)%Z /\
(score g' <= score g + Z.of_nat (length ev))%Z.
Proof.
destruct (frame_inv colliderect inp g disk) as (g2 & s' & H2 & Hloop & ->).
intros [= <- _ <-] Hb. cbn [score high].
unfold before_loop in H2.
destruct (spawn_fields inp (event_loop (ev_ticks inp) (events inp) g))
  as (g2' & Hg2 & _ & Hsc & Hh & _).
assert (g2' = g2) by congruence. subst g2'.
rewrite event_loop_high in Hh.
pose proof (event_loop_score (ev_ticks inp) (events inp) g) as Hs1.
pose proof (pipes_loop_score_bounds _ _ _ _ _ Hloop) as Hb'.
destruct (pipes_loop_events _ _ _ _ _ Hloop) as (new & Hnew & Hn & _).
cbn [l_score l_high l_scored app] in Hb', Hn, Hnew. rewrite Hnew.
split; [apply Hb'|]; lia.
Qed.

(** X4.  Through a whole run of the program the score is never negative,
  never above the number of score events so far, and never above the
  best score, provided the best score loaded at start was not
  negative. *)
Theorem score_bounds (t0 : Z) (inps : list Input) (disk : FileState) :
exists h g' disk' ev,
  load_highscore disk = Ok h /\
  run_game colliderect t0 inps disk = Ok (g', disk', ev) /\
  (0 <= score g')%Z /\
  (score g' <= Z.of_nat (length ev))%Z /\
  (score g' <= Z.max (high g') 0)%Z /\
  (0 <= h -> score g' <= high g')%Z.
Proof.
unfold run_game.
destruct (setup_returns t0 disk) as (g & Hset & _ & _ & Hload).
rewrite Hset. cbn [bind].
assert (Hg : (0 <= score g <= Z.max (high g) 0)%Z /\ score g = 0%Z).
{ unfold setup in Hset. destruct (load_highscore disk); [|discriminate].
  injection Hset as <-. simpl. lia. }
destruct (frames_spec colliderect inps g disk)
  as (g' & disk' & ev & Hf & Hh & _).
exists (high g), g', disk', ev.
split; [exact Hload|]. split; [exact Hf|].
assert (Hgen : forall inps g disk g' disk' ev,
           frames colliderect inps g disk = Ok (g', disk', ev) ->
           (0 <= score g <= Z.max (high g) 0)%Z ->
           (0 <= score g' <= Z.max (high g') 0)%Z /\
           (score g' <= score g + Z.of_nat (length ev))%Z).
{ clear. intros inps. induction inps as [|inp rest IH];
    intros g disk g' disk' ev Hf Hb; simpl in Hf.
  - injection Hf as <- _ <-. simpl. split; [exact Hb | lia].
  - destruct (running g).
    2:{ injection Hf as <- _ <-. simpl. split; [exact Hb | lia]. }
    destruct (frame colliderect inp g disk) as [[[g1 d1] ev1]|] eqn:H1;
      [|discriminate].
    cbn [bind] in Hf.
    destruct (frames colliderect rest g1 d1) as [[[g2 d2] ev2]|] eqn:H2;
      [|discriminate].
    cbn [bind] in Hf. injection Hf as <- _ <-.
    destruct (frame_score_bounds _ _ _ _ _ _ H1 Hb) as (Hb1 & Hle1).
    destruct (IH _ _ _ _ _ H2 Hb1) as (Hb2 & Hle2).
    split; [exact Hb2|]. rewrite length_app. lia. }
destruct (Hgen _ _ _ _ _ _ Hf (proj1 Hg)) as (Hb & Hle).
destruct Hg as (_ & Hz).
repeat apply conj; try lia.
Qed.

(** X3.  The best score is written through.  A frame in which no pipe
  scores leaves the file as it is.  A frame in which a pipe scores and
  no write fails leaves the file holding the decimal text of the best
  score the frame ends with, and load_highscore reads that very value
  back. *)
Theorem best_score_written_through (inp : Input) (g : Game) (disk : FileState) :
exists g' disk' ev,
  frame colliderect inp g disk = Ok (g', disk', ev) /\
  (ev = [] -> disk' = disk) /\
  (faults inp = [] -> ev <> [] ->
   disk' = Text (str_of_int (high g')) /\
   load_highscore disk' = Ok (high g')).
Proof.
destruct (frame_inv colliderect inp g disk) as (g2 & s' & H2 & Hloop & Hf).
eexists _, _, _. split; [exact Hf|].
destruct (pipes_loop_disk _ _ _ _ _ Hloop) as (Hlen & Hsame & Hfl).
cbn [l_scored l_disk l_faults length] in Hlen, Hsame, Hfl. cbn [high].
split.
- intros Hev. apply Hsame. rewrite Hev. reflexivity.
- intros Hno Hev. destruct (Hfl Hno) as (_ & Hw).
  assert (Hd : l_disk s' = Text (str_of_int (l_high s'))).
  { apply Hw. destruct (l_scored s'); [congruence | simpl; lia]. }
  split; [exact Hd|]. rewrite Hd.
  apply load_written.
Qed.

End ScoreFacts.

(* --------------------------------------------------------------------- *)
(*  Idle, start, collision                                                *)
(* --------------------------------------------------------------------- *)

Section SessionStates.

Variable colliderect : Rect -> Rect -> bool.

Lemma idle_frame (inp : Input) (g : Game) (disk : FileState) :
idle g ->
KEYDOWN K_SPACE ∉ events inp ->
exists g',
  frame colliderect inp g disk = Ok (g', disk, []) /\
  idle g' /\
  heap g' = heap g /\ score g' = score g /\ high g' = high g /\
  last_pipe_time g' = last_pipe_time g /\
  Bird.y (bird g') = Bird.y (bird g) /\
  Bird.vel (bird g') = Bird.vel (bird g).
Proof.
intros (Hs & Ho & Hp) Hk.
destruct (frame_inv colliderect inp g disk) as (g2 & s' & H2 & Hloop & Hf).
unfold before_loop in H2.
rewrite (event_loop_no_key _ _ _ Hk) in H2 by (intros Habs; congruence).
assert (Hg2 : g2 = g \/ g2 = set_running false g).
{ unfold spawn in H2.
  destruct (existsb is_quit (events inp));
    cbn [started game_over set_running] in H2;
    rewrite Hs in H2; cbn [andb] in H2; injection H2 as <-; auto. }
assert (Hf2 : started g2 = false /\ game_over g2 = false /\
              pipes g2 = [] /\ heap g2 = heap g /\ score g2 = score g /\
              high g2 = high g /\ last_pipe_time g2 = last_pipe_time g /\
              bird g2 = bird g).
{ destruct Hg2 as [->| ->]; cbn; auto 10. }
destruct Hf2 as (Hs2 & Ho2 & Hp2 & Hh2 & Hsc2 & Hi2 & Hl2 & Hb2).
rewrite Hp2 in Hloop. cbn [pipes_loop] in Hloop. injection Hloop as <-.
rewrite Hf. cbn [l_heap l_pipes l_score l_high l_disk l_scored].
rewrite Hs2, Ho2, Hh2, Hsc2, Hi2, Hl2, Hb2. cbn [andb].
eexists. split; [reflexivity|]. unfold idle. cbn. auto 10.
Qed.

(** X9.  Until SPACE is pressed for the first time nothing happens.  A run
  of the program whose frames see no SPACE key press ends idle: not
  started, not over, no pipe created, score 0, no score event, the file
  untouched, the spawn timer where it was set, and the bird at rest in
  the middle of the screen. *)
Theorem idle_until_space (t0 : Z) (inps : list Input) (disk : FileState) :
Forall (fun inp => KEYDOWN K_SPACE ∉ events inp) inps ->
exists g',
  run_game colliderect t0 inps disk = Ok (g', disk, []) /\
  started g' = false /\ game_over g' = false /\
  pipes g' = [] /\ heap g' = [] /\ score g' = 0%Z /\
  load_highscore disk = Ok (high g') /\
  last_pipe_time g' = (t0 - 850)%Z /\
  Bird.y (bird g') = 350 /\ Bird.vel (bird g') = 0.
Proof.
intros Hall. unfold run_game.
destruct (setup_returns t0 disk) as (g & Hset & _ & Hheap & Hload).
rewrite Hset. cbn [bind].
assert (Hg : idle g /\ score g = 0%Z /\
             last_pipe_time g = (t0 - 850)%Z /\
             Bird.y (bird g) = 350 /\ Bird.vel (bird g) = 0).
{ unfold setup in Hset. destruct (load_highscore disk); [|discriminate].
  injection Hset as <-. unfold idle. simpl. auto 10. }
clear Hset. revert g Hheap Hload Hg.
induction Hall as [|inp rest Hk _ IH]; intros g Hheap Hload Hg.
- exists g. destruct Hg as ((Hs & Ho & Hp) & Hsc & Hl & Hy & Hv).
  simpl. auto 12.
- destruct Hg as (Hidle & Hsc & Hl & Hy & Hv). simpl.
  destruct (running g).
  2:{ exists g. destruct Hidle as (Hs & Ho & Hp). auto 12. }
  destruct (idle_frame inp g disk Hidle Hk)
    as (g1 & -> & Hidle1 & Hh1 & Hs1 & Hi1 & Hl1 & Hy1 & Hv1).
  cbn [bind].
  destruct (IH g1) as (g' & -> & Hrest); try congruence.
  { repeat split; try congruence; apply Hidle1. }
  cbn [bind]. exists g'. split; [reflexivity | exact Hrest].
Qed.

(** X10.  SPACE on the start screen starts the session and flaps in one go.
  After the event loop the game is started and the bird is a fresh
  bird with the flap impulse as velocity; after the whole frame the
  bird has made its first update: velocity -9.05, y 340.95. *)
Theorem space_starts_and_flaps (inp : Input) (g : Game) (disk : FileState) :
started g = false ->
game_over g = false ->
events inp = [KEYDOWN K_SPACE] ->
(let g1 := event_loop (ev_ticks inp) (events inp) g in
 started g1 = true /\ game_over g1 = false /\
 bird g1 = Bird.flap Bird.__init__ /\
 Bird.vel (bird g1) = FLAP_POWER /\
 score g1 = score g /\ pipes g1 = pipes g) /\
exists g' disk' ev,
  frame colliderect inp g disk = Ok (g', disk', ev) /\
  started g' = true /\
  bird g' = Bird.update (dt inp) (Bird.flap Bird.__init__) /\
  Bird.vel (bird g') == -9.05 /\
  Bird.y (bird g') == 340.95.
Proof.
intros Hs Ho Hev.
assert (H1 : event_loop (ev_ticks inp) (events inp) g
             = set_bird (Bird.flap Bird.__init__) (set_started true g)).
{ rewrite Hev. cbn [event_loop]. unfold on_keydown.
  rewrite Hs. cbn [negb game_over set_bird set_started bird].
  rewrite Ho. reflexivity. }
split.
- cbv zeta. rewrite H1. cbn. auto 10.
- destruct (frame_inv colliderect inp g disk) as (g2 & s' & H2 & _ & Hf).
  unfold before_loop in H2. rewrite H1 in H2.
  destruct (spawn_fields inp (set_bird (Bird.flap Bird.__init__)
                                       (set_started true g)))
    as (g2' & Hg2 & Hb & _ & _ & _ & Hst & Hgo & _).
  assert (g2' = g2) by congruence. subst g2'.
  cbn [set_bird set_started bird started game_over] in Hb, Hst, Hgo.
  rewrite Hb, Hst, Hgo, Ho in Hf. cbn [negb andb] in Hf.
  eexists _, _, _. split; [exact Hf|]. cbn [started bird].
  repeat apply conj; reflexivity.
Qed.


End SessionStates.

(* --------------------------------------------------------------------- *)
(*  clamp, pipe rectangles, bird motion                                   *)
(* --------------------------------------------------------------------- *)

(** X1.  Clamp(v, a, b) with a <= b lies in [a, b], is v itself when v lies
    in [a, b], grows with v, and clamping twice is clamping once.  With
    the bounds the wrong way round (b < a) the result is a, whatever v. *)
Theorem clamp_behaviour (v a b : Q) :
  (a <= b ->
   a <= clamp v a b <= b /\
   (a <= v <= b -> clamp v a b == v) /\
   (forall v', v <= v' -> clamp v a b <= clamp v' a b) /\
   clamp (clamp v a b) a b == clamp v a b) /\
  (b < a -> clamp v a b == a).
Proof.
  split.
  - intros Hab. split; [apply clamp_range, Hab|].
    split; [apply clamp_cases, Hab|].
    split.
    + intros v' Hv. unfold clamp, py_max, py_min. case_Qltb; lra.
    + unfold clamp, py_max, py_min. case_Qltb; lra.
  - intros Hba. unfold clamp, py_max, py_min. case_Qltb; lra.
Qed.

(** X15.  The two rectangles of a pipe as created, as get_top_rect and
    get_bottom_rect hand them to pygame.Rect.  Both start at the x of
    the pipe and are 88 wide; the top one hangs from y = 0, the bottom
    one starts exactly PIPE_GAP = 200 below the end of the top one and
    ends on the ground line y = 600; each is at least 80 high. *)
Theorem pipe_rects_leave_the_gap (x0 : Q) (u : Z) :
  exists p,
    Pipe.__init__ x0 u = Ok p /\
    left (Pipe_get_top_rect p) = x0 /\
    left (Pipe_get_bottom_rect p) = x0 /\
    width (Pipe_get_top_rect p) == 88 /\
    width (Pipe_get_bottom_rect p) == 88 /\
    top (Pipe_get_top_rect p) == 0 /\
    top (Pipe_get_bottom_rect p)
      - (top (Pipe_get_top_rect p) + height (Pipe_get_top_rect p))
      == inject_Z PIPE_GAP /\
    top (Pipe_get_bottom_rect p) + height (Pipe_get_bottom_rect p) == 600 /\
    80 <= height (Pipe_get_top_rect p) /\
    80 <= height (Pipe_get_bottom_rect p).
Proof.
  unfold Pipe.__init__.
  destruct (randint_range 80 (HEIGHT - GROUND_HEIGHT - PIPE_GAP - 80) u)
    as (r & Hr & Hlo & Hhi); [unfold HEIGHT, GROUND_HEIGHT, PIPE_GAP; lia|].
  rewrite Hr. cbn [bind]. eexists. split; [reflexivity|].
  unfold Pipe_get_top_rect, Pipe_get_bottom_rect.
  cbn [left top width height Pipe.x Pipe.w Pipe.h_top Pipe.h_bottom].
  unfold HEIGHT, GROUND_HEIGHT, PIPE_GAP, PIPE_WIDTH in *.
  change 80 with (inject_Z 80). change 600 with (inject_Z 600).
  rewrite <- !inject_Z_plus, <- !Zle_Qle.
  repeat apply conj; try reflexivity; try lia.
  - rewrite inject_Z_plus. ring.
  - replace (r + 200 + (700 - 100 - r - 200))%Z with 600%Z by lia.
    reflexivity.
Qed.



(* --------------------------------------------------------------------- *)
(*  Particles and clouds                                                  *)
(* --------------------------------------------------------------------- *)

Lemma uniform_range (a b r : Q) :
  a <= b -> 0 <= r <= 1 -> a <= uniform a b r <= b.
Proof.
  intros Hab [H0 H1]. unfold uniform. know_num.
  assert (0 <= (b - a) * r) by (apply Qmult_le_0_compat; lra).
  assert (0 <= (b - a) * (1 - r)) by (apply Qmult_le_0_compat; lra).
  split; lra.
Qed.

Lemma particle_init_fresh (x0 y0 : Q) (d : Draws) :
  0 <= d_x d <= 1 -> 0 <= d_y d <= 1 ->
  0 <= d_velx d <= 1 -> 0 <= d_vely d <= 1 ->
  exists p, Particle.__init__ x0 y0 d = Ok p /\ particle_fresh x0 y0 p.
Proof.
  intros Hx Hy Hvx Hvy. unfold Particle.__init__.
  destruct (randint_range 2 5 (d_size d)) as (sz & -> & Hsz); [lia|].
  cbn [bind]. eexists. split; [reflexivity|].
  unfold particle_fresh. simpl.
  pose proof (uniform_range (-6) 6 (d_x d) ltac:(lra) Hx).
  pose proof (uniform_range (-6) 6 (d_y d) ltac:(lra) Hy).
  pose proof (uniform_range (-1.8) 1.8 (d_velx d) ltac:(lra) Hvx).
  pose proof (uniform_range (-3.0) (-0.5) (d_vely d) ltac:(lra) Hvy).
  know_num. repeat apply conj; try reflexivity; try lra; lia.
Qed.

(** X18.  A flap throws exactly 12 particles, appended after the ones there
    are.  With draws of random() in [0, 1], each starts within 6 of the
    point (bird.x - 6, bird.y), moves upwards (vely in [-3, -0.5]), has
    the full lifetime 0.6 and a size from 2 to 5. *)
Theorem flap_throws_twelve_particles (b : Bird.t) (draws : nat -> Draws)
        (particles : list Particle.t) :
  (forall i, 0 <= d_x (draws i) <= 1 /\ 0 <= d_y (draws i) <= 1 /\
             0 <= d_velx (draws i) <= 1 /\ 0 <= d_vely (draws i) <= 1) ->
  exists new,
    spawn_particles b draws particles = Ok (particles ++ new) /\
    length new = 12%nat /\
    Forall (particle_fresh (Bird.x b - 6) (Bird.y b)) new.
Proof.
  intros Hd. unfold spawn_particles.
  assert (Hgen : forall n i ps, exists new,
             particles_burst n i b draws ps = Ok (ps ++ new) /\
             length new = n /\
             Forall (particle_fresh (Bird.x b - 6) (Bird.y b)) new).
  { induction n as [|n IH]; intros i ps.
    - exists []. rewrite app_nil_r. repeat split. constructor.
    - destruct (Hd i) as (H1 & H2 & H3 & H4).
      destruct (particle_init_fresh (Bird.x b - 6) (Bird.y b) (draws i)
                  H1 H2 H3 H4) as (p & Hp & Hfresh).
      cbn [particles_burst]. rewrite Hp. cbn [bind].
      destruct (IH (S i) (ps ++ [p])) as (new & -> & Hlen & Hall).
      exists (p :: new). rewrite <- app_assoc. simpl.
      repeat split; [lia|]. constructor; assumption. }
  apply Hgen.
Qed.

Lemma particle_update_life (dt : Q) (p : Particle.t) :
  Particle.life (Particle.update dt p) == Particle.life p - dt.
Proof. apply num_eq. Qed.

Lemma particles_loop_filter (dt : Q) (ps : list Particle.t) :
  particles_loop dt ps
  = List.map (Particle.update dt)
      (List.filter (fun p => Qltb dt (Particle.life p)) ps).
Proof.
  induction ps as [|p rest IH]; cbn [particles_loop List.filter List.map];
    [reflexivity|].
  pose proof (particle_update_life dt p) as Hl.
  destruct (Qle_bool (Particle.life (Particle.update dt p)) 0) eqn:E.
  - apply Qle_bool_iff in E.
    assert (Hf : Qltb dt (Particle.life p) = false) by (apply Qltb_false; lra).
    rewrite Hf. exact IH.
  - assert (Hpos : 0 < Particle.life (Particle.update dt p)).
    { apply Qnot_le_lt. intros Hle. apply Qle_bool_iff in Hle. congruence. }
    assert (Hf : Qltb dt (Particle.life p) = true) by (apply Qltb_true; lra).
    rewrite Hf. cbn [List.map]. rewrite <- IH. reflexivity.
Qed.

Lemma particles_loop_alive (dt : Q) (ps : list Particle.t) :
  Forall (fun p => 0 < Particle.life p) (particles_loop dt ps).
Proof.
  induction ps as [|p rest IH]; cbn [particles_loop]; [constructor|].
  destruct (Qle_bool (Particle.life (Particle.update dt p)) 0) eqn:E;
    [exact IH|].
  constructor; [|exact IH].
  apply Qnot_le_lt. intros Hle. apply Qle_bool_iff in Hle. congruence.
Qed.

Lemma particles_loop_length (dt : Q) (ps : list Particle.t) :
  (length (particles_loop dt ps) <= length ps)%nat.
Proof.
  induction ps as [|p rest IH]; simpl; [lia|].
  destruct (Qle_bool _ 0); simpl; lia.
Qed.

(** X19.  The particle loop keeps exactly the particles whose life is more
    than dt, in their order, each updated once; every particle it keeps
    has a positive life, and it never makes the list longer. *)
Theorem particles_loop_keeps_the_living (dt : Q) (particles : list Particle.t) :
  particles_loop dt particles
  = List.map (Particle.update dt)
      (List.filter (fun p => Qltb dt (Particle.life p)) particles) /\
  Forall (fun p => 0 < Particle.life p) (particles_loop dt particles) /\
  (length (particles_loop dt particles) <= length particles)%nat.
Proof.
  split; [apply particles_loop_filter|].
  split; [apply particles_loop_alive | apply particles_loop_length].
Qed.





Lemma cloud_init_ok (ux uy : Z) (rs rc : Q) :
  0 <= rs <= 1 ->
  exists c, Cloud.__init__ ux uy rs rc = Ok c /\ cloud_ok c /\
            0 <= Cloud.x c <= inject_Z WIDTH.
Proof.
  intros Hrs. unfold Cloud.__init__.
  destruct (randint_range 0 WIDTH ux) as (x0 & -> & Hx); [unfold WIDTH; lia|].
  destruct (randint_range 40 200 uy) as (y0 & -> & Hy); [lia|].
  cbn [bind]. eexists. split; [reflexivity|].
  unfold cloud_ok. simpl.
  pose proof (uniform_range 0.3 1.1 rs ltac:(lra) Hrs).
  unfold WIDTH in *.
  assert (H0 : inject_Z 0 <= inject_Z x0) by (rewrite <- Zle_Qle; lia).
  assert (H1 : inject_Z x0 <= inject_Z 480) by (rewrite <- Zle_Qle; lia).
  assert (H2 : inject_Z 480 <= inject_Z (480 + 60)) by (rewrite <- Zle_Qle; lia).
  change (inject_Z 0) with 0 in H0.
  repeat apply conj; try lia; try lra.
Qed.

Lemma cloud_update_ok (dt : Q) (uy : Z) (rs : Q) (c : Cloud.t) :
  cloud_ok c ->
  0 <= rs <= 1 ->
  exists c',
    Cloud.update dt uy rs c = Ok c' /\
    cloud_ok c' /\
    (Cloud.x c - Cloud.speed c < -120 -> Cloud.x c' == 540) /\
    (-120 <= Cloud.x c - Cloud.speed c ->
     Cloud.x c' == Cloud.x c - Cloud.speed c /\
     Cloud.y c' = Cloud.y c /\ Cloud.speed c' = Cloud.speed c) /\
    Cloud.scale c' = Cloud.scale c.
Proof.
  intros ((Hx1 & Hx2) & Hy & Hs) Hrs. unfold Cloud.update.
  pose proof (num_eq (Cloud.x c - Cloud.speed c)) as Hn.
  assert (Hw : inject_Z (WIDTH + 60) == 540) by reflexivity.
  destruct (Qltb (num (Cloud.x c - Cloud.speed c)) (-120)) eqn:E.
  - apply Qltb_true in E.
    destruct (randint_range 40 200 uy) as (y1 & -> & Hy1); [lia|].
    cbn [bind]. eexists. split; [reflexivity|].
    pose proof (uniform_range 0.3 1.1 rs ltac:(lra) Hrs).
    unfold cloud_ok. simpl.
    repeat apply conj; try lia; try lra; try reflexivity.
  - apply Qltb_false in E.
    eexists. split; [reflexivity|].
    unfold cloud_ok. simpl.
    repeat apply conj; try lia; try lra; try reflexivity.
    intros _. auto.
Qed.

(** X21.  Clouds stay in their lane.  With draws of random() in [0, 1], a
    new cloud, and every cloud after an update, has x in [-120, 540], y
    in [40, 200] and speed in [0.3, 1.1].  A cloud that would pass
    x = -120 reappears at x = WIDTH + 60 = 540; any other update moves it
    left by its speed and keeps y and speed. *)
Theorem clouds_stay_in_lane (rs : Q) :
  0 <= rs <= 1 ->
  (forall ux uy rc, exists c,
      Cloud.__init__ ux uy rs rc = Ok c /\ cloud_ok c) /\
  (forall dt uy c, cloud_ok c ->
     exists c',
       Cloud.update dt uy rs c = Ok c' /\
       cloud_ok c' /\
       (Cloud.x c - Cloud.speed c < -120 -> Cloud.x c' == 540) /\
       (-120 <= Cloud.x c - Cloud.speed c ->
        Cloud.x c' == Cloud.x c - Cloud.speed c /\
        Cloud.y c' = Cloud.y c /\ Cloud.speed c' = Cloud.speed c)).
Proof.
  intros Hrs. split.
  - intros ux uy rc.
    destruct (cloud_init_ok ux uy rs rc Hrs) as (c & Hc & Hok & _). eauto.
  - intros dt uy c Hok.
    destruct (cloud_update_ok dt uy rs c Hok Hrs) as (c' & H1 & H2 & H3 & H4 & _).
    eauto 6.
Qed.

(* --------------------------------------------------------------------- *)
(*  The pipes of the deque stand in a row                                 *)
(* --------------------------------------------------------------------- *)


















Section Row.

Variable colliderect : Rect -> Rect -> bool.



End Row.

(* --------------------------------------------------------------------- *)
(*  The further properties on concrete inputs                             *)
(* --------------------------------------------------------------------- *)

(** X12, witness. *)
Lemma quit_drops_later_events_witness :
  is_quit QUIT = true /\
  event_loop 2000 ([OTHER] ++ QUIT :: [KEYDOWN K_SPACE]) fresh_game
  = event_loop 2000 ([OTHER] ++ [QUIT]) fresh_game.
Proof.
  split; [reflexivity|].
  exact (proj1 (quit_drops_later_events 2000 [OTHER] [KEYDOWN K_SPACE] QUIT
                  fresh_game eq_refl)).
Defined.

(** X5, witness. *)
Lemma frame_moves_every_pipe_witness :
  wf crashed /\
  exists g' disk' ev o',
    frame pygame_colliderect (quiet 2000) crashed Absent = Ok (g', disk', ev) /\
    heap g' !! 0%nat = Some o' /\ Pipe.x o' == 14 - PIPE_SPEED.
Proof.
  split; [exact wf_crashed|].
  destruct (frame_moves_every_pipe pygame_colliderect (quiet 2000) crashed
              Absent wf_crashed)
    as (g2 & g' & disk' & ev & H2 & Hf & Hmv & _).
  injection H2 as <-.
  destruct (Hmv 0%nat (Pipe.mk 14 88 80 320 false)) as (o' & Ho' & Hx & _).
  - apply list_elem_of_singleton. reflexivity.
  - reflexivity.
  - exists g', disk', ev, o'. auto.
Defined.

(** X8, witness. *)
Lemma game_over_until_restart_witness :
  game_over crashed = true /\
  exists g' disk' ev,
    frame pygame_colliderect (quiet 2000) crashed Absent = Ok (g', disk', ev) /\
    game_over g' = true /\ Bird.y (bird g') = Bird.y (bird crashed).
Proof.
  split; [reflexivity|].
  destruct (game_over_until_restart pygame_colliderect (quiet 2000) crashed
              Absent eq_refl (not_elem_of_nil _) (not_elem_of_nil _))
    as (g' & disk' & ev & Hf & Ho & _ & _ & Hy & _).
  exists g', disk', ev. auto.
Defined.

(** X11, witness. *)
Lemma quit_stops_the_loop_witness :
  existsb is_quit (events closing) = true /\
  exists g' disk' ev,
    frame pygame_colliderect closing fresh_game Absent = Ok (g', disk', ev) /\
    running g' = false /\
    frames pygame_colliderect [closing; quiet 2016; quiet 2032] fresh_game Absent
    = Ok (g', disk', ev).
Proof.
  split; [reflexivity|].
  destruct (quit_stops_the_loop pygame_colliderect closing fresh_game Absent
              eq_refl) as (g' & disk' & ev & Hf & Hr & Hrest).
  exists g', disk', ev. repeat split; auto.
Defined.

(** X13, witness. *)
Lemma inert_events_change_nothing_witness :
  game_over fresh_game = false /\
  event_loop 2000 [KEYDOWN K_r; OTHER; KEYDOWN K_other] fresh_game = fresh_game.
Proof.
  split; [reflexivity|].
  apply inert_events_change_nothing; [reflexivity|].
  constructor; [right; right; reflexivity|].
  constructor; [left; reflexivity|].
  constructor; [right; left; reflexivity | constructor].
Defined.

(** X4, witness. *)
Lemma score_bounds_witness :
  exists g' disk' ev,
    run_game pygame_colliderect 0 (press K_SPACE 1000 :: quiets 3 1016) (Text "7")
    = Ok (g', disk', ev) /\
    (0 <= score g' <= high g')%Z.
Proof.
  destruct (score_bounds pygame_colliderect 0
              (press K_SPACE 1000 :: quiets 3 1016) (Text "7"))
    as (h & g' & disk' & ev & Hload & Hrun & H0 & _ & _ & Hhi).
  injection Hload as <-.
  exists g', disk', ev. split; [exact Hrun|]. split; [exact H0|].
  apply Hhi. lia.
Defined.

(** X3, witness. *)
Lemma best_score_written_through_witness :
  faults (quiet 2000) = [] /\
  exists g' disk' ev,
    frame pygame_colliderect (quiet 2000) crashed Absent = Ok (g', disk', ev) /\
    ev <> [] /\ load_highscore disk' = Ok (high g').
Proof.
  split; [reflexivity|].
  destruct (best_score_written_through pygame_colliderect (quiet 2000) crashed
              Absent) as (g' & disk' & ev & Hf & _ & Hw).
  assert (Hev : ev <> []).
  { vm_compute in Hf. injection Hf as _ _ <-. discriminate. }
  exists g', disk', ev. split; [exact Hf|]. split; [exact Hev|].
  exact (proj2 (Hw eq_refl Hev)).
Defined.

Lemma no_space_in_r : KEYDOWN K_SPACE ∉ [KEYDOWN K_r].
Proof.
  intros H. apply list_elem_of_singleton in H. discriminate.
Qed.

(** X9, witness. *)
Lemma idle_until_space_witness :
  Forall (fun inp => KEYDOWN K_SPACE ∉ events inp) [quiet 0; press K_r 16] /\
  exists g',
    run_game pygame_colliderect 0 [quiet 0; press K_r 16] Absent
    = Ok (g', Absent, []) /\
    started g' = false /\ score g' = 0%Z.
Proof.
  assert (H : Forall (fun inp => KEYDOWN K_SPACE ∉ events inp)
                     [quiet 0; press K_r 16]).
  { constructor; [apply not_elem_of_nil|].
    constructor; [apply no_space_in_r | constructor]. }
  split; [exact H|].
  destruct (idle_until_space pygame_colliderect 0 [quiet 0; press K_r 16]
              Absent H) as (g' & Hrun & Hs & _ & _ & _ & Hsc & _).
  exists g'. auto.
Defined.

(** X10, witness. *)
Lemma space_starts_and_flaps_witness :
  started fresh_game = false /\ game_over fresh_game = false /\
  exists g' disk' ev,
    frame pygame_colliderect (press K_SPACE 1000) fresh_game Absent
    = Ok (g', disk', ev) /\
    started g' = true /\ Bird.vel (bird g') == -9.05.
Proof.
  split; [reflexivity|]. split; [reflexivity|].
  destruct (space_starts_and_flaps pygame_colliderect (press K_SPACE 1000)
              fresh_game Absent eq_refl eq_refl eq_refl)
    as (_ & g' & disk' & ev & Hf & Hs & _ & Hv & _).
  exists g', disk', ev. auto.
Defined.


(** X1, witness. *)
Lemma clamp_behaviour_witness :
  -999 <= 12 /\ -999 <= clamp (-2000) (-999) 12 <= 12.
Proof.
  assert (H : -999 <= 12) by lra.
  split; [exact H|].
  exact (proj1 (proj1 (clamp_behaviour (-2000) (-999) 12) H)).
Defined.



Lemma middling_in_range (i : nat) :
  0 <= d_x (middling i) <= 1 /\ 0 <= d_y (middling i) <= 1 /\
  0 <= d_velx (middling i) <= 1 /\ 0 <= d_vely (middling i) <= 1.
Proof. simpl. repeat split; lra. Qed.

(** X18, witness. *)
Lemma flap_throws_twelve_particles_witness :
  exists new,
    spawn_particles Bird.__init__ middling [spark] = Ok ([spark] ++ new) /\
    length new = 12%nat.
Proof.
  destruct (flap_throws_twelve_particles Bird.__init__ middling [spark]
              middling_in_range) as (new & Hs & Hlen & _).
  exists new. auto.
Defined.


(** X21, witness. *)
Lemma clouds_stay_in_lane_witness :
  0 <= 0.5 <= 1 /\ cloud_ok drifting /\
  exists c', Cloud.update 0.016 7 0.5 drifting = Ok c' /\ Cloud.x c' == 540.
Proof.
  assert (Hr : 0 <= 0.5 <= 1) by lra.
  assert (Hok : cloud_ok drifting).
  { unfold cloud_ok, drifting. simpl.
    repeat split; try lia; vm_compute; intros Habs; discriminate Habs. }
  split; [exact Hr|]. split; [exact Hok|].
  destruct (proj2 (clouds_stay_in_lane 0.5 Hr) 0.016 7%Z drifting Hok)
    as (c' & Hc & _ & Hwrap & _).
  exists c'. split; [exact Hc|]. apply Hwrap. vm_compute. reflexivity.
Defined.
